(** * Vault: lease capping (logical/framework/lease.go) and the MSSQL
    physical backend (physical/mssql/mssql.go)

  A shallow embedding of the two Go source files, the properties their
  specification states about them, and further properties of the code:
  its error and edge behaviour, what its operations leave untouched, how
  they compose.

  Layout: the first half of the file holds the definitions (the Go
  values, the small SQL fragment the backend sends to the server, the
  embedded functions); the second half holds the theorems. *)

From Stdlib Require Import ZArith Lia Ascii String List.
From stdpp Require Import base option numbers list strings gmap sorting.

Local Open Scope Z_scope.
Local Open Scope string_scope.

(** * Part I: definitions *)

(** ** Go values shared by both files *)

(** Go's [error] interface, as far as these two files build and inspect
  error values.  A nil error is [None : option error]. *)
Inductive error : Type :=
| ErrNoRows                                   (* sql.ErrNoRows *)
| DriverError (msg : string)                  (* any other failure reported by database/sql *)
| Errorf (msg : string)                       (* fmt.Errorf(msg) *)
| Wrapf (format : string) (inner : error)     (* errwrap.Wrapf(format, inner) *)
| ErrSyntax                                   (* strconv.ErrSyntax *)
| ErrRange                                    (* strconv.ErrRange *)
| NumError (Func Num : string) (Err : error). (* &strconv.NumError{Func, Num, Err} *)

#[global] Instance error_eq_dec : EqDecision error.
Proof. solve_decision. Defined.

(** The error at the bottom of a chain of wrappings. *)
Fixpoint root_cause (e : error) : error :=
  match e with
  | Wrapf _ inner => root_cause inner
  | _ => e
  end.

(** [[]byte]: a sequence of 8-bit values. *)
Definition bytes : Type := list Byte.byte.

(** ** package time: the part lease.go uses *)

Module time.

(** [time.Duration] is an int64 count of nanoseconds. *)
Definition Duration : Type := Z.

Definition minDuration : Duration := - 2 ^ 63.
Definition maxDuration : Duration := 2 ^ 63 - 1.

Definition in_range (d : Z) : Prop := minDuration <= d <= maxDuration.

Definition Nanosecond : Duration := 1.
Definition Second : Duration := 1000000000.
Definition Hour : Duration := 3600 * Second.

(** [time.Time], with the monotonic reading stripped (lease.go calls
    [UTC()] on every clock reading): an instant, counted in nanoseconds
    from the zero Time.  The second counter of a Time is 64 bits wide,
    far wider than any Duration, so instants are left unbounded. *)
Definition Time : Type := Z.

(** [t.Add(d)] *)
Definition Add (t : Time) (d : Duration) : Time := t + d.

(** [t.Sub(u)]: the difference as a Duration; when it does not fit, Go
    returns the largest (or smallest) Duration instead. *)
Definition Sub (t u : Time) : Duration :=
  if Z_lt_dec maxDuration (t - u) then maxDuration
  else if Z_lt_dec (t - u) minDuration then minDuration
  else t - u.

End time.

(** ** package logical: Request, Response, Auth, Secret, LeaseOptions

  The struct declarations live in package [logical], outside the two
  files; lease.go reads and writes the fields below.  What else the
  structs hold is kept as an opaque payload. *)

Module logical.
Section Structs.
Context {LeaseFields AuthFields SecretFields RequestFields : Type}.

Record LeaseOptions : Type := mkLeaseOptions {
  Lease : time.Duration;
  LeaseIncrement : time.Duration;
  lease_fields : LeaseFields
}.

(** [Auth] and [Secret] both embed a LeaseOptions. *)
Record Auth : Type := mkAuth {
  auth_LeaseOptions : LeaseOptions;
  auth_fields : AuthFields
}.

Record Secret : Type := mkSecret {
  secret_LeaseOptions : LeaseOptions;
  secret_fields : SecretFields
}.

(** [req.Auth] and [req.Secret] are pointers; [None] is nil. *)
Record Request : Type := mkRequest {
  req_Auth : option Auth;
  req_Secret : option Secret;
  req_fields : RequestFields
}.

Record Response : Type := mkResponse {
  resp_Auth : option Auth;
  resp_Secret : option Secret
}.
End Structs.
Arguments LeaseOptions : clear implicits.
Arguments Auth : clear implicits.
Arguments Secret : clear implicits.
Arguments Request : clear implicits.
Arguments Response : clear implicits.

(** Modelled from the spec: the body of the method [IncrementedLease] of LeaseOptions,
    declared in package [logical], is not part of the two files.  The
    specification describes its result as "the naively requested new
    lease length [...] the current lease plus the requested increment",
    and gives the case "lease=1h, increment=2h, maxOffset=3h issued at
    time T with original expiration T", where the requested lease is 2h:
    the current lease counts from the time of the call to the expiration
    time.  So the result is the expiration time moved by the increment,
    less the time of the call, as [Time.Sub] computes it. *)
Definition IncrementedLease {LeaseFields : Type}
    (ExpirationTime : LeaseOptions LeaseFields -> time.Time) (now : time.Time)
    (l : LeaseOptions LeaseFields) (inc : time.Duration) : time.Duration :=
  time.Sub (time.Add (ExpirationTime l) inc) now.

End logical.

(** ** logical/framework/lease.go *)

Module framework.
Import logical.
Section Lease.
Context {LeaseFields AuthFields SecretFields RequestFields : Type}.

Abbreviation LeaseOptions := (logical.LeaseOptions LeaseFields).
Abbreviation Auth := (logical.Auth LeaseFields AuthFields).
Abbreviation Secret := (logical.Secret LeaseFields SecretFields).
Abbreviation Request :=
  (logical.Request LeaseFields AuthFields SecretFields RequestFields).
Abbreviation Response :=
  (logical.Response LeaseFields AuthFields SecretFields).

(** The two methods of [*logical.LeaseOptions] that lease.go calls,
    [lease.IncrementedLease(inc)] and [lease.ExpirationTime()].  Their
    bodies are in package [logical]; [LeaseExtend] is parametrised by
    them. *)
Variable incrementedLease : LeaseOptions -> time.Duration -> time.Duration.
Variable expirationTime : LeaseOptions -> time.Time.

(** [detectLease] returns a pointer into the request: to the
    LeaseOptions embedded in [*req.Auth] or in [*req.Secret].  The
    pointer is modelled by the place it points to, with the object found
    there. *)
Inductive LeasePtr : Type :=
| InAuth (a : Auth)          (* &req.Auth.LeaseOptions *)
| InSecret (s : Secret).     (* &req.Secret.LeaseOptions *)

Definition detectLease (req : Request) : option LeasePtr :=
  match req_Auth req with
  | Some a => Some (InAuth a)
  | None =>
      match req_Secret req with
      | Some s => Some (InSecret s)
      | None => None
      end
  end.

(** Reading through the pointer. *)
Definition deref (p : LeasePtr) : LeaseOptions :=
  match p with
  | InAuth a => auth_LeaseOptions a
  | InSecret s => secret_LeaseOptions s
  end.

Definition set_Lease (v : time.Duration) (l : LeaseOptions) : LeaseOptions :=
  {| Lease := v; LeaseIncrement := LeaseIncrement l;
     lease_fields := lease_fields l |}.

(** Writing through the pointer ([lease.Lease = v]): the object that
    changes is the one the request points to. *)
Definition store_Lease (p : LeasePtr) (v : time.Duration) (req : Request)
  : Request :=
  match p with
  | InAuth a =>
      {| req_Auth :=
           Some {| auth_LeaseOptions := set_Lease v (auth_LeaseOptions a);
                   auth_fields := auth_fields a |};
         req_Secret := req_Secret req;
         req_fields := req_fields req |}
  | InSecret s =>
      {| req_Auth := req_Auth req;
         req_Secret :=
           Some {| secret_LeaseOptions := set_Lease v (secret_LeaseOptions s);
                   secret_fields := secret_fields s |};
         req_fields := req_fields req |}
  end.

(** The locals of [LeaseExtend], named as in the source. *)
Definition maxExpiration (max : time.Duration) (now : time.Time) : time.Time :=
  time.Add now max.

Definition newExpiration (now : time.Time) (newLease : time.Duration) : time.Time :=
  time.Add now newLease.

(** The value [newLease] holds when [LeaseExtend] reaches
    [lease.Lease = newLease]. *)
Definition admittedLease (max : time.Duration) (now : time.Time)
    (l : LeaseOptions) : time.Duration :=
  let newLease := incrementedLease l (LeaseIncrement l) in
  if Z_gt_dec (time.Sub (newExpiration now newLease) (maxExpiration max now)) 0
  then time.Sub (maxExpiration max now) (expirationTime l)
  else newLease.

(** [LeaseExtend(max)(req, data)], with [now] the reading of
    [time.Now().UTC()].  The request is mutated in place, so the
    function returns the request as it is after the call together with
    the Go result.  The response holds the same [Auth] and [Secret]
    pointers as the request, hence the objects as mutated. *)
Definition LeaseExtend (max : time.Duration) (now : time.Time) (req : Request)
  : Request * (error + Response) :=
  match detectLease req with
  | None => (req, inl (Errorf "no lease options for request"))
  | Some lease =>
      let req' := store_Lease lease (admittedLease max now (deref lease)) req in
      (req', inr {| resp_Auth := req_Auth req'; resp_Secret := req_Secret req' |})
  end.

(** The lease options of the context that a renewal acts on: those of
    the auth context when there is one, else those of the secret
    context. *)
Definition leaseOf (req : Request) : option LeaseOptions :=
  deref <$> detectLease req.

End Lease.
End framework.

(** ** Concrete renewal requests

    Sample inputs for the lease capper.  The opaque part of the lease
    options holds the instant at which the lease expires, and
    [ExpirationTime] reads it; the other payloads are empty. *)

Module lease_examples.
Import logical framework.

Definition ExpirationTime (l : LeaseOptions time.Time) : time.Time :=
  lease_fields l.

(** The reading of the clock: some instant in the year 2026. *)
Definition now : time.Time := 63900000000 * time.Second.

Definition leaseOptions (lease increment : time.Duration) (expires : time.Time)
  : LeaseOptions time.Time :=
  {| Lease := lease; LeaseIncrement := increment; lease_fields := expires |}.

Definition authRequest (lease increment : time.Duration) (expires : time.Time)
  : Request time.Time unit unit unit :=
  {| req_Auth :=
       Some {| auth_LeaseOptions := leaseOptions lease increment expires;
               auth_fields := tt |};
     req_Secret := None;
     req_fields := tt |}.

Definition secretRequest (lease increment : time.Duration) (expires : time.Time)
  : Request time.Time unit unit unit :=
  {| req_Auth := None;
     req_Secret :=
       Some {| secret_LeaseOptions := leaseOptions lease increment expires;
               secret_fields := tt |};
     req_fields := tt |}.

Definition bareRequest : Request time.Time unit unit unit :=
  {| req_Auth := None; req_Secret := None; req_fields := tt |}.

(** [LeaseExtend] with the modelled [IncrementedLease]. *)
Definition extend (max : time.Duration) (req : Request time.Time unit unit unit) :=
  LeaseExtend (IncrementedLease ExpirationTime now) ExpirationTime max now req.

(** The lease field after the call, when the call succeeds. *)
Definition leaseAfter (max : time.Duration) (req : Request time.Time unit unit unit)
  : option time.Duration :=
  match extend max req with
  | (req', inr _) => Lease <$> leaseOf req'
  | (_, inl _) => None
  end.

End lease_examples.

(** ** Go library functions that mssql.go calls *)

Module gostrings.

(** [strings.HasPrefix(s, prefix)] *)
Definition HasPrefix (s prefix : string) : bool := String.prefix prefix s.

(** [s[n:]] for [n] within the string. *)
Fixpoint drop (n : nat) (s : string) : string :=
  match n, s with
  | O, _ => s
  | S n', String _ s' => drop n' s'
  | S _, EmptyString => EmptyString
  end.

(** [strings.TrimPrefix(s, prefix)]: [s] without the leading [prefix],
    or [s] itself when it does not start with [prefix]. *)
Definition TrimPrefix (s prefix : string) : string :=
  if HasPrefix s prefix then drop (String.length prefix) s else s.

(** [strings.Index(s, substr)]: the index of the first instance of
    [substr] in [s], or -1. *)
Definition Index (s substr : string) : Z :=
  match String.index 0 substr s with
  | Some i => Z.of_nat i
  | None => -1
  end.

(** [s[:j]] *)
Definition slice_to (s : string) (j : Z) : string :=
  String.substring 0 (Z.to_nat j) s.

(** [sort.Strings(a)]: [a] in increasing order; Go compares strings byte
    by byte, as [String.le] does.  Equal strings are indistinguishable,
    so the outcome does not depend on the sorting algorithm. *)
Definition sort_Strings (a : list string) : list string :=
  merge_sort String.le a.

End gostrings.

Module strutil.

(** Modelled from the spec: [strutil.AppendIfMissing] is declared in
    helper/strutil, outside the two files.  The specification calls the
    accumulation "append-if-absent": the string is appended unless the
    slice holds it already. *)
Definition AppendIfMissing (slice : list string) (i : string) : list string :=
  if bool_decide (i ∈ slice) then slice else slice ++ [i].

End strutil.

(** ** The SQL the backend sends, and what the server does with it

    The backend talks to one table, created by the constructor as
    [(Path VARCHAR(512) PRIMARY KEY, Value VARBINARY(MAX))].  A table is
    a finite map from Path to Value: the primary key makes the rows
    unique by Path.  Path values are compared exactly, byte by byte (a
    binary collation; the padding of trailing blanks is left out). *)

Module sql.

(** A value bound to a [?] placeholder. *)
Inductive Arg : Type :=
| ArgString (s : string)
| ArgBytes (b : bytes).

(** A column value of a result row. *)
Inductive Cell : Type :=
| CellString (s : string)
| CellBytes (b : bytes).

(** The WHERE clauses of the four statements; the number is the position
    of the clause's placeholder among the statement's placeholders. *)
Inductive Where : Type :=
| PathEq (i : nat)          (* WHERE Path = ? *)
| PathLike (i : nat).       (* WHERE Path LIKE ? *)

(** The statements prepared by [NewMSSQLBackend]. *)
Inductive Query : Type :=
| IfExistsElse (w : Where) (thn els : Query)
    (* IF EXISTS(SELECT 1 FROM t WHERE w) thn ELSE els *)
| Update (v : nat) (w : Where)     (* UPDATE t SET Value = ? WHERE w *)
| Insert (p v : nat)               (* INSERT INTO t VALUES(?, ?) *)
| SelectValue (w : Where)          (* SELECT Value FROM t WHERE w *)
| SelectPath (w : Where)           (* SELECT Path FROM t WHERE w *)
| Delete (w : Where).              (* DELETE FROM t WHERE w *)

(** The statement's text for the table [t], as mssql.go spells it. *)
Definition render_where (w : Where) : string :=
  match w with
  | PathEq _ => " WHERE Path = ?"
  | PathLike _ => " WHERE Path LIKE ?"
  end.

Fixpoint render (t : string) (q : Query) : string :=
  match q with
  | IfExistsElse w thn els =>
      "IF EXISTS(SELECT 1 FROM " ++ t ++ render_where w ++ ") "
        ++ render t thn ++ " ELSE " ++ render t els
  | Update _ w => "UPDATE " ++ t ++ " SET Value = ?" ++ render_where w
  | Insert _ _ => "INSERT INTO " ++ t ++ " VALUES(?, ?)"
  | SelectValue w => "SELECT Value FROM " ++ t ++ render_where w
  | SelectPath w => "SELECT Path FROM " ++ t ++ render_where w
  | Delete w => "DELETE FROM " ++ t ++ render_where w
  end.

(** The placeholders of a statement, in the order of the text. *)
Definition where_placeholders (w : Where) : list nat :=
  match w with PathEq i | PathLike i => [i] end.

Fixpoint placeholders (q : Query) : list nat :=
  match q with
  | IfExistsElse w thn els =>
      where_placeholders w ++ placeholders thn ++ placeholders els
  | Update v w => v :: where_placeholders w
  | Insert p v => [p; v]
  | SelectValue w | SelectPath w | Delete w => where_placeholders w
  end.

(** [s LIKE pattern]: in the pattern, [%] stands for any string and [_]
    for any single character; every other character stands for itself.
    (T-SQL also reads [[...]] as a character class; that is not modelled,
    and the statements below that need LIKE to read a prefix literally
    exclude prefixes with a bracket.) *)
Fixpoint like (pattern : string) : string -> bool :=
  match pattern with
  | EmptyString => fun s => match s with EmptyString => true | _ => false end
  | String c pattern' =>
      if Ascii.eqb c "%" then
        fix any (s : string) : bool :=
          like pattern' s
          || match s with EmptyString => false | String _ s' => any s' end
      else if Ascii.eqb c "_" then
        fun s => match s with EmptyString => false | String _ s' => like pattern' s' end
      else
        fun s =>
          match s with
          | EmptyString => false
          | String d s' => Ascii.eqb c d && like pattern' s'
          end
  end.

(** A pattern without the characters LIKE reads specially. *)
Fixpoint literal (pattern : string) : bool :=
  match pattern with
  | EmptyString => true
  | String c pattern' =>
      negb (Ascii.eqb c "%") && negb (Ascii.eqb c "_") && negb (Ascii.eqb c "[")
      && literal pattern'
  end.

(** A pattern without a bracket: [%] and [_] may occur in it. *)
Fixpoint bracket_free (pattern : string) : bool :=
  match pattern with
  | EmptyString => true
  | String c pattern' => negb (Ascii.eqb c "[") && bracket_free pattern'
  end.

(** The length the Path column admits. *)
Definition path_limit : nat := 512.

Definition arg_string (args : list Arg) (i : nat) : option string :=
  match args !! i with
  | Some (ArgString s) => Some s
  | _ => None
  end.

Definition arg_bytes (args : list Arg) (i : nat) : option bytes :=
  match args !! i with
  | Some (ArgBytes b) => Some b
  | _ => None
  end.

(** The server's answer to a statement whose placeholders are bound to
    values of the wrong kind, or not bound. *)
Definition bad_args : error := DriverError "invalid statement arguments".

(** A WHERE clause with its placeholder bound: a test on Path. *)
Definition condition (w : Where) (args : list Arg) : option (string -> bool) :=
  match w with
  | PathEq i => (fun s path => bool_decide (path = s)) <$> arg_string args i
  | PathLike i => (fun pattern path => like pattern path) <$> arg_string args i
  end.

(** The rows of a table that pass the test. *)
Definition select (c : string -> bool) (tbl : gmap string bytes)
  : gmap string bytes :=
  filter (fun row => c row.1 = true) tbl.

(** The effect of a statement on the table, or the server's error. *)
Fixpoint exec (q : Query) (args : list Arg) (tbl : gmap string bytes)
  : error + gmap string bytes :=
  match q with
  | IfExistsElse w thn els =>
      match condition w args with
      | None => inl bad_args
      | Some c =>
          if bool_decide (select c tbl = ∅)
          then exec els args tbl
          else exec thn args tbl
      end
  | Update v w =>
      match arg_bytes args v, condition w args with
      | Some b, Some c =>
          inr (map_imap (fun path old => Some (if c path then b else old)) tbl)
      | _, _ => inl bad_args
      end
  | Insert p v =>
      match arg_string args p, arg_bytes args v with
      | Some path, Some b =>
          if bool_decide (path_limit < String.length path)%nat
          then inl (DriverError "String or binary data would be truncated")
          else if bool_decide (is_Some (tbl !! path))
          then inl (DriverError "Violation of PRIMARY KEY constraint")
          else inr (<[path := b]> tbl)
      | _, _ => inl bad_args
      end
  | Delete w =>
      match condition w args with
      | Some c => inr (filter (fun row => c row.1 = false) tbl)
      | None => inl bad_args
      end
  | SelectValue w | SelectPath w =>
      match condition w args with
      | Some _ => inr tbl
      | None => inl bad_args
      end
  end.

(** The rows a statement returns, one column each, in the order in which
    the table enumerates them. *)
Definition result_set (q : Query) (args : list Arg) (tbl : gmap string bytes)
  : list Cell :=
  match q with
  | SelectValue w =>
      match condition w args with
      | Some c => (fun row => CellBytes row.2) <$> map_to_list (select c tbl)
      | None => []
      end
  | SelectPath w =>
      match condition w args with
      | Some c => (fun row => CellString row.1) <$> map_to_list (select c tbl)
      | None => []
      end
  | _ => []
  end.

(** [*sql.Rows]: what the successive calls of [rows.Scan] will give. *)
Definition Rows : Type := list (error + Cell).

(** The rows as the program scans them: [scan_fault n] tells whether
    scanning the n-th row fails. *)
Definition scanned (scan_fault : nat -> option string) (cells : list Cell) : Rows :=
  imap (fun n cell =>
          match scan_fault n with
          | Some msg => inl (DriverError msg)
          | None => inr cell
          end) cells.

(** [stmt.Exec(args...)]; the [sql.Result] is dropped, as mssql.go drops
    it.  [fault] tells whether the call fails before the server runs the
    statement (connection, protocol); a call that fails leaves the table
    as it was.  A failure that is reported after the server has applied
    the statement is not covered; the theorems on [Put] and [Delete]
    draw nothing about the row of the key from a returned error. *)
Definition Stmt_Exec (fault : option string) (st : Query) (args : list Arg)
    (tbl : gmap string bytes) : option error * gmap string bytes :=
  match fault with
  | Some msg => (Some (DriverError msg), tbl)
  | None =>
      match exec st args tbl with
      | inl e => (Some e, tbl)
      | inr tbl' => (None, tbl')
      end
  end.

(** [stmt.Query(args...)]; [row_order] is the order in which the server
    returns the rows it selects (SQL leaves it open without ORDER BY). *)
Definition Stmt_Query (fault : option string)
    (row_order : list Cell -> list Cell) (scan_fault : nat -> option string)
    (st : Query) (args : list Arg) (tbl : gmap string bytes)
  : (error + Rows) * gmap string bytes :=
  match fault with
  | Some msg => (inl (DriverError msg), tbl)
  | None =>
      match exec st args tbl with
      | inl e => (inl e, tbl)
      | inr tbl' =>
          (inr (scanned scan_fault (row_order (result_set st args tbl))), tbl')
      end
  end.

(** [stmt.QueryRow(args...).Scan(dest)]: the first row of the query, or
    [sql.ErrNoRows] when the query succeeds and selects none. *)
Definition Stmt_QueryRow_Scan (fault : option string)
    (row_order : list Cell -> list Cell) (scan_fault : nat -> option string)
    (st : Query) (args : list Arg) (tbl : gmap string bytes)
  : (error + Cell) * gmap string bytes :=
  match Stmt_Query fault row_order scan_fault st args tbl with
  | (inl e, tbl') => (inl e, tbl')
  | (inr [], tbl') => (inl ErrNoRows, tbl')
  | (inr (row :: _), tbl') => (row, tbl')
  end.

(** Scanning a column into a [[]byte] or into a [string]. *)
Definition to_bytes (c : Cell) : bytes :=
  match c with
  | CellBytes b => b
  | CellString s => list_byte_of_string s
  end.

Definition to_string (c : Cell) : string :=
  match c with
  | CellString s => s
  | CellBytes b => string_of_list_byte b
  end.

End sql.

Module strconv.

Definition digit (c : ascii) : option Z :=
  let n := Z.of_nat (nat_of_ascii c) in
  if bool_decide (48 <= n <= 57) then Some (n - 48) else None.

(** The loop of [ParseUint] in base 10 over 64 bits, with [acc] the
    value read so far: a character that is not a digit is a syntax
    error; a value that leaves the range of a uint64 is a range error,
    reported where the loop meets it. *)
Fixpoint digits (s : string) (acc : Z) : error + Z :=
  match s with
  | EmptyString => inr acc
  | String c s' =>
      match digit c with
      | None => inl ErrSyntax
      | Some d =>
          if bool_decide (2 ^ 64 <= 10 * acc + d) then inl ErrRange
          else digits s' (10 * acc + d)
      end
  end.

(** A leading sign, split off: whether it is a minus, and the rest. *)
Definition signed (s : string) : bool * string :=
  match s with
  | String c s' =>
      if Ascii.eqb c "-" then (true, s')
      else if Ascii.eqb c "+" then (false, s')
      else (false, s)
  | EmptyString => (false, s)
  end.

(** [strconv.Atoi(s)]: a decimal integer with an optional sign, within
    the range of a 64-bit [int].  The error is a [*NumError] that names
    the function and the input. *)
Definition Atoi (s : string) : error + Z :=
  let '(negative, body) := signed s in
  match body with
  | EmptyString => inl (NumError "Atoi" s ErrSyntax)
  | _ =>
      match digits body 0 with
      | inl e => inl (NumError "Atoi" s e)
      | inr n =>
          let v := if negative : bool then - n else n in
          if bool_decide (- 2 ^ 63 <= v <= 2 ^ 63 - 1) then inr v
          else inl (NumError "Atoi" s ErrRange)
      end
  end.

(** A decimal numeral: an optional sign, then one digit or more. *)
Fixpoint all_digits (s : string) : bool :=
  match s with
  | EmptyString => true
  | String c s' => bool_decide (is_Some (digit c)) && all_digits s'
  end.

Definition numeral (s : string) : bool :=
  match (signed s).2 with
  | EmptyString => false
  | body => all_digits body
  end.

End strconv.

(** ** package physical: what mssql.go uses of it *)

Module physical.

(** [physical.Entry] *)
Record Entry : Type := mkEntry {
  Key : string;
  Value : bytes
}.

(** Modelled from the spec: [physical.PermitPool] and [NewPermitPool]
    are declared in package [physical], outside the two files.  The
    specification describes a pool of permits with a capacity fixed at construction
    and a count of available permits: acquire "blocks the calling
    execution context until a permit is available, then decrements
    available permits", release "increments available permits".  The
    count of available permits is part of the running state (see
    [mssql.World]); the pool itself holds its capacity. *)
Record PermitPool : Type := mkPermitPool {
  capacity : nat
}.

Definition NewPermitPool (permits : Z) : PermitPool :=
  {| capacity := Z.to_nat permits |}.

End physical.

(** ** physical/mssql/mssql.go *)

Module mssql.
Import physical.

(** The backend.  [client] (the database handle) and [logger] carry no
    state of their own in this model: the database is reached through the
    calls below, and logging has no effect on results. *)
Record MSSQLBackend : Type := mkMSSQLBackend {
  dbTable : string;
  statements : gmap string sql.Query;
  permitPool : PermitPool
}.

(** The calls by which the code reaches what lies outside it: the permit
    pool, the database driver, Go's map iteration. *)
Inductive Call : Type :=
| Acquire                                               (* m.permitPool.Acquire() *)
| Release                                               (* m.permitPool.Release() *)
| StmtExec (st : sql.Query) (args : list sql.Arg)       (* stmt.Exec(args...) *)
| StmtQueryRowScan (st : sql.Query) (args : list sql.Arg)
                                                        (* stmt.QueryRow(args...).Scan(dest) *)
| StmtQuery (st : sql.Query) (args : list sql.Arg)      (* stmt.Query(args...) *)
| Open (driverName dataSourceName : string)             (* sql.Open(...) *)
| SetMaxOpenConns (n : Z)                               (* db.SetMaxOpenConns(n) *)
| DBExec (query : string)                               (* db.Exec(query) *)
| DBQueryRowScan (query : string)                       (* db.QueryRow(query).Scan(dest) *)
| Prepare (table : string) (query : sql.Query)          (* m.client.Prepare(text of query) *)
| Range (entries : list (string * sql.Query)).          (* for name, query := range statements *)

(** What each call gives back. *)
Definition Reply (c : Call) : Type :=
  match c with
  | Acquire | Release | SetMaxOpenConns _ => unit
  | StmtExec _ _ | Open _ _ | DBExec _ | DBQueryRowScan _ => option error
  | StmtQueryRowScan _ _ => (error + sql.Cell)%type
  | StmtQuery _ _ => (error + sql.Rows)%type
  | Prepare _ _ => (error + sql.Query)%type
  | Range _ => list (string * sql.Query)
  end.

(** A Go function body as the tree of its calls: it returns, panics, or
    makes a call and goes on with the reply. *)
Inductive Prog (A : Type) : Type :=
| Ret (a : A)
| Panic (msg : string)
| Do (c : Call) (k : Reply c -> Prog A).
Arguments Ret {A} a.
Arguments Panic {A} msg.
Arguments Do {A} c k.

Fixpoint bind {A B : Type} (p : Prog A) (f : A -> Prog B) : Prog B :=
  match p with
  | Ret a => f a
  | Panic msg => Panic msg
  | Do c k => Do c (fun r => bind (k r) f)
  end.

Definition call (c : Call) : Prog (Reply c) := Do c Ret.

(** [defer cleanup] at the head of [body]: [cleanup] runs when [body]
    returns and when it panics; the result or the panic of [body]
    stands. *)
Fixpoint defer {A : Type} (cleanup : Prog unit) (body : Prog A) : Prog A :=
  match body with
  | Ret a => bind cleanup (fun _ => Ret a)
  | Panic msg => bind cleanup (fun _ => Panic msg)
  | Do c k => Do c (fun r => defer cleanup (k r))
  end.

(** [m.statements[name]]: a nil [*sql.Stmt] when the map has no such
    entry, on which every method call panics. *)
Definition prepared {A : Type} (m : MSSQLBackend) (name : string)
    (k : sql.Query -> Prog A) : Prog A :=
  match statements m !! name with
  | Some st => k st
  | None => Panic "invalid memory address or nil pointer dereference"
  end.

Notation "x <- p ;; q" := (bind p (fun x => q))
  (at level 100, p at next level, right associativity, only parsing).

(** The four operations.  Each also defers [metrics.MeasureSince], which
    reports a duration and has no bearing on results; it is left out.
    [entry] stands for the object a non-nil [*physical.Entry] points
    to. *)

Definition Put (m : MSSQLBackend) (entry : Entry) : Prog (option error) :=
  _ <- call Acquire ;;
  defer (call Release)
    (prepared m "put" (fun stmt =>
       err <- call (StmtExec stmt
                      [sql.ArgString (Key entry); sql.ArgBytes (Value entry);
                       sql.ArgString (Key entry); sql.ArgString (Key entry);
                       sql.ArgBytes (Value entry)]) ;;
       match err with
       | Some e => Ret (Some e)
       | None => Ret None
       end)).

(** The Go result, a [*physical.Entry] and an error, is a pair; [None]
    is nil. *)
Definition Get (m : MSSQLBackend) (key : string)
  : Prog (option Entry * option error) :=
  _ <- call Acquire ;;
  defer (call Release)
    (prepared m "get" (fun stmt =>
       r <- call (StmtQueryRowScan stmt [sql.ArgString key]) ;;
       match r with
       | inl err =>
           if bool_decide (err = ErrNoRows) then Ret (None, None)
           else Ret (None, Some err)
       | inr result =>
           let ent := {| Key := key; Value := sql.to_bytes result |} in
           Ret (Some ent, None)
       end)).

Definition Delete (m : MSSQLBackend) (key : string) : Prog (option error) :=
  _ <- call Acquire ;;
  defer (call Release)
    (prepared m "delete" (fun stmt =>
       err <- call (StmtExec stmt [sql.ArgString key]) ;;
       match err with
       | Some e => Ret (Some e)
       | None => Ret None
       end)).

(** The loop [for rows.Next() { ... }] of [List], over the rows still to
    come, with [keys] as accumulated so far: the error of a failed scan,
    or the keys when the rows are used up. *)
Fixpoint List_loop (prefix : string) (rows : sql.Rows) (keys : list string)
  : error + list string :=
  match rows with
  | [] => inr keys
  | inl err :: _ => inl (Wrapf "failed to scan rows: {{err}}" err)
  | inr cell :: rows' =>
      let key := sql.to_string cell in
      let key := gostrings.TrimPrefix key prefix in
      let i := gostrings.Index key "/" in
      if bool_decide (i = -1) then
        List_loop prefix rows' (keys ++ [key])
      else if bool_decide (i <> -1) then
        List_loop prefix rows'
          (strutil.AppendIfMissing keys (gostrings.slice_to key (i + 1)))
      else List_loop prefix rows' keys
  end.

(** One turn of the loop on a scanned key, as a function of the keys
    accumulated so far. *)
Definition List_step (prefix : string) (keys : list string) (key : string)
  : list string :=
  let key := gostrings.TrimPrefix key prefix in
  let i := gostrings.Index key "/" in
  if bool_decide (i = -1) then keys ++ [key]
  else strutil.AppendIfMissing keys (gostrings.slice_to key (i + 1)).

(** The Go result [([]string, error)] is a pair; a nil slice is [[]]. *)
Definition List (m : MSSQLBackend) (prefix : string)
  : Prog (list string * option error) :=
  _ <- call Acquire ;;
  defer (call Release)
    (let likePrefix := prefix ++ "%" in
     prepared m "list" (fun stmt =>
       r <- call (StmtQuery stmt [sql.ArgString likePrefix]) ;;
       match r with
       | inl err => Ret ([], Some err)
       | inr rows =>
           match List_loop prefix rows [] with
           | inl err => Ret ([], Some err)
           | inr keys => Ret (gostrings.sort_Strings keys, None)
           end
       end)).

(** *** The constructor *)

Section Constructor.

(** [physical.DefaultParallelOperations], a constant of package
    [physical]. *)
Variable DefaultParallelOperations : Z.

Definition defaults : list (string * string) :=
  [("database", "Vault"); ("table", "Vault"); ("appname", "Vault");
   ("connection timeout", "30"); ("schema", "dbo"); ("log level", "0")].

Definition backcomp : list (string * string) :=
  [("connectiontimeout", "connection timeout"); ("loglevel", "log level");
   ("username", "user id")].

(** [conf[k]]: the empty string when the key is not set. *)
Definition conf_get (conf : gmap string string) (k : string) : string :=
  default EmptyString (conf !! k).

(** "upgrade parameter keys".  No key of [backcomp] is the new name of
    another, so the order in which Go walks the map does not matter. *)
Definition upgrade_keys (conf : gmap string string) : gmap string string :=
  foldl (fun conf '(k, v) =>
           match conf !! k with
           | Some confv => delete k (<[v := confv]> conf)
           | None => conf
           end) conf backcomp.

(** "inject defaults into configuration map" *)
Definition inject_defaults (conf : gmap string string) : gmap string string :=
  foldl (fun conf '(k, v) =>
           match conf !! k with
           | Some _ => conf
           | None => <[k := v]> conf
           end) conf defaults.

Definition join (sep : string) (l : list string) : string :=
  match l with
  | [] => EmptyString
  | x :: l' => foldl (fun acc y => acc ++ sep ++ y) x l'
  end.

(** The connection string.  Go walks the configuration in no fixed
    order; the string is only handed to [sql.Open]. *)
Definition connection_string (conf : gmap string string) : string :=
  let connectionString := conf_get conf "connection_url" in
  if bool_decide (connectionString = EmptyString) then
    join ";" ((fun '(k, v) => k ++ "=" ++ v) <$> map_to_list conf)
  else connectionString.

(** The statements, by name, for the backend's table. *)
Definition statement_list : list (string * sql.Query) :=
  [("put", sql.IfExistsElse (sql.PathEq 0)
             (sql.Update 1 (sql.PathEq 2)) (sql.Insert 3 4));
   ("get", sql.SelectValue (sql.PathEq 0));
   ("delete", sql.Delete (sql.PathEq 0));
   ("list", sql.SelectPath (sql.PathLike 0))].

(** [if err != nil { return nil, errwrap.Wrapf(format, err) }] *)
Definition check {A : Type} (err : option error) (format : string)
    (rest : Prog (error + A)) : Prog (error + A) :=
  match err with
  | Some e => Ret (inl (Wrapf format e))
  | None => rest
  end.

(** A string in double quotes, as [%q] prints a plain name. *)
Definition quoted (name : string) : string :=
  String (ascii_of_nat 34) (name ++ String (ascii_of_nat 34) EmptyString).

(** [m.prepare(name, query)]: the error, and the backend as it is after
    the call. *)
Definition prepare (m : MSSQLBackend) (name : string) (query : sql.Query)
  : Prog (option error * MSSQLBackend) :=
  r <- call (Prepare (dbTable m) query) ;;
  match r with
  | inl err =>
      Ret (Some (Wrapf ("failed to prepare " ++ quoted name ++ ": {{err}}") err), m)
  | inr stmt =>
      Ret (None, {| dbTable := dbTable m;
                    statements := <[name := stmt]> (statements m);
                    permitPool := permitPool m |})
  end.

(** [for name, query := range statements { ... }], over the entries in
    the order in which Go yields them. *)
Fixpoint prepare_all (m : MSSQLBackend) (entries : list (string * sql.Query))
  : Prog (error + MSSQLBackend) :=
  match entries with
  | [] => Ret (inr m)
  | (name, query) :: entries' =>
      r <- prepare m name query ;;
      match r with
      | (Some err, _) => Ret (inl err)
      | (None, m') => prepare_all m' entries'
      end
  end.

(** The constructor, in the order of the source.  Its tail is split
    off under names of its own so that the branches of the schema block
    can share it: [create_table] is the code from
    [db.Exec(createQuery)] to the end, [ensure_schema] the block
    [if schema != "dbo" { ... }] followed by [rest]. *)

Definition create_table (maxParInt : Z) (database schema table : string)
  : Prog (error + MSSQLBackend) :=
  let dbTable := database ++ "." ++ schema ++ "." ++ table in
  let createQuery :=
    "IF NOT EXISTS(SELECT 1 FROM " ++ database
      ++ ".INFORMATION_SCHEMA.TABLES WHERE TABLE_TYPE='BASE TABLE' AND TABLE_NAME='"
      ++ table ++ "' AND TABLE_SCHEMA='" ++ schema
      ++ "') CREATE TABLE " ++ dbTable
      ++ " (Path VARCHAR(512) PRIMARY KEY, Value VARBINARY(MAX))" in
  err <- call (DBExec createQuery) ;;
  check err "failed to create mssql table: {{err}}" (
  let m := {| dbTable := dbTable;
              statements := ∅;
              permitPool := NewPermitPool maxParInt |} in
  entries <- call (Range statement_list) ;;
  prepare_all m entries).

Definition ensure_schema (database schema : string)
    (rest : Prog (error + MSSQLBackend)) : Prog (error + MSSQLBackend) :=
  if bool_decide (schema <> "dbo") then
    err <- call (DBExec ("USE " ++ database)) ;;
    check err "failed to switch mssql database: {{err}}" (
    err <- call (DBQueryRowScan ("SELECT 1 FROM sys.schemas WHERE name = '"
                                   ++ schema ++ "'")) ;;
    match err with
    | Some e =>
        if bool_decide (e = ErrNoRows) then
          err <- call (DBExec ("CREATE SCHEMA " ++ schema)) ;;
          check err "failed to create mssql schema: {{err}}" rest
        else
          Ret (inl (Wrapf "failed to check if mssql schema exists: {{err}}" e))
    | None => rest
    end)
  else rest.

Definition NewMSSQLBackend (conf : gmap string string)
  : Prog (error + MSSQLBackend) :=
  match
    match conf !! "max_parallel" with
    | Some maxParStr => strconv.Atoi maxParStr
    | None => inr DefaultParallelOperations
    end
  with
  | inl err =>
      Ret (inl (Wrapf "failed parsing max_parallel parameter: {{err}}" err))
  | inr maxParInt =>
      let conf := inject_defaults (upgrade_keys conf) in
      err <- call (Open "mssql" (connection_string conf)) ;;
      check err "failed to connect to mssql: {{err}}" (
      _ <- call (SetMaxOpenConns maxParInt) ;;
      let database := conf_get conf "database" in
      let schema := conf_get conf "schema" in
      let table := conf_get conf "table" in
      err <- call (DBExec ("IF NOT EXISTS(SELECT * FROM sys.databases WHERE name = '"
                             ++ database ++ "') CREATE DATABASE " ++ database)) ;;
      check err "failed to create mssql database: {{err}}" (
      ensure_schema database schema
        (create_table maxParInt database schema table)))
  end.

End Constructor.

(** *** Running the code

    The state outside the program: the rows of the backend's table and
    the permits the pool has available. *)
Record World : Type := mkWorld {
  table : gmap string bytes;
  available : nat
}.

(** What the program does not control: which driver calls fail, in
    which order the server returns rows, which row scans fail, whether
    the schema probe of the constructor finds the schema, and the order
    in which Go walks a map. *)
Record Env : Type := mkEnv {
  fault : Call -> option string;
  row_order : list sql.Cell -> list sql.Cell;
  scan_fault : nat -> option string;
  schema_found : bool;
  range_order : list (string * sql.Query) -> list (string * sql.Query)
}.

(** Nothing fails, and rows and map entries come as enumerated. *)
Definition calm : Env :=
  {| fault := fun _ => None;
     row_order := fun rows => rows;
     scan_fault := fun _ => None;
     schema_found := true;
     range_order := fun entries => entries |}.

Definition driver_error (f : option string) : option error :=
  DriverError <$> f.

(** One call: its reply and the state after it; [None] when the call
    cannot proceed (Acquire with no permit available).  The data
    definition statements of the constructor create what is missing and
    leave the rows of an existing table alone. *)
Definition handle (env : Env) (c : Call) (w : World) : option (Reply c * World) :=
  match c return option (Reply c * World) with
  | Acquire =>
      match available w with
      | O => None
      | S n => Some (tt, {| table := table w; available := n |})
      end
  | Release => Some (tt, {| table := table w; available := S (available w) |})
  | StmtExec st args =>
      let '(r, tbl) :=
        sql.Stmt_Exec (fault env (StmtExec st args)) st args (table w) in
      Some (r, {| table := tbl; available := available w |})
  | StmtQueryRowScan st args =>
      let '(r, tbl) :=
        sql.Stmt_QueryRow_Scan (fault env (StmtQueryRowScan st args))
          (row_order env) (scan_fault env) st args (table w) in
      Some (r, {| table := tbl; available := available w |})
  | StmtQuery st args =>
      let '(r, tbl) :=
        sql.Stmt_Query (fault env (StmtQuery st args))
          (row_order env) (scan_fault env) st args (table w) in
      Some (r, {| table := tbl; available := available w |})
  | Open d n => Some (driver_error (fault env (Open d n)), w)
  | SetMaxOpenConns _ => Some (tt, w)
  | DBExec q => Some (driver_error (fault env (DBExec q)), w)
  | DBQueryRowScan q =>
      match fault env (DBQueryRowScan q) with
      | Some msg => Some (Some (DriverError msg), w)
      | None => Some (if schema_found env then None else Some ErrNoRows, w)
      end
  | Prepare t q =>
      match fault env (Prepare t q) with
      | Some msg => Some (inl (DriverError msg), w)
      | None => Some (inr q, w)
      end
  | Range entries => Some (range_order env entries, w)
  end.

(** How a run of a function ends when nothing else runs beside it. *)
Inductive Outcome (A : Type) : Type :=
| Returned (a : A) (w : World)
| Panicked (msg : string) (w : World)
| Blocked.
Arguments Returned {A} a w.
Arguments Panicked {A} msg w.
Arguments Blocked {A}.

Fixpoint run {A : Type} (env : Env) (p : Prog A) (w : World) : Outcome A :=
  match p with
  | Ret a => Returned a w
  | Panic msg => Panicked msg w
  | Do c k =>
      match handle env c w with
      | None => Blocked
      | Some (r, w') => run env (k r) w'
      end
  end.

(** The calls a run makes, in order. *)
Fixpoint calls {A : Type} (env : Env) (p : Prog A) (w : World) : list Call :=
  match p with
  | Ret _ | Panic _ => []
  | Do c k =>
      c :: match handle env c w with
           | None => []
           | Some (r, w') => calls env (k r) w'
           end
  end.

(** A driver call that fails in [env]. *)
Definition fails (env : Env) (c : Call) : Prop :=
  match c with
  | Open _ _ | DBExec _ | DBQueryRowScan _ | Prepare _ _
  | StmtExec _ _ | StmtQueryRowScan _ _ | StmtQuery _ _ =>
      is_Some (fault env c)
  | Acquire | Release | SetMaxOpenConns _ | Range _ => False
  end.

(** *** Concurrent callers

    Goroutines that each run one operation of the same backend.  A
    thread is what is left of its operation, with the number of permits
    it holds; a step is one call of one thread, taken atomically. *)

Inductive Operation : Type :=
| OpPut (entry : Entry)
| OpGet (key : string)
| OpDelete (key : string)
| OpList (prefix : string).

(** The result of an operation, whichever it is. *)
Inductive Result : Type :=
| RErr (err : option error)
| REntry (ent : option Entry) (err : option error)
| RKeys (keys : list string) (err : option error).

Definition invoke (m : MSSQLBackend) (op : Operation) : Prog Result :=
  match op with
  | OpPut entry => err <- Put m entry ;; Ret (RErr err)
  | OpGet key => r <- Get m key ;; Ret (REntry r.1 r.2)
  | OpDelete key => err <- Delete m key ;; Ret (RErr err)
  | OpList prefix => r <- List m prefix ;; Ret (RKeys r.1 r.2)
  end.

Record Thread : Type := mkThread {
  code : Prog Result;
  permits : nat
}.

Record Config : Type := mkConfig {
  threads : list Thread;
  world : World
}.

(** The permits a thread holds after a call. *)
Definition permits_after (c : Call) (n : nat) : nat :=
  match c with
  | Acquire => S n
  | Release => pred n
  | _ => n
  end.

Inductive step : Config -> Config -> Prop :=
| step_call (env : Env) (ts : list Thread) (w w' : World) (i : nat)
    (c : Call) (k : Reply c -> Prog Result) (n : nat) (r : Reply c) :
    ts !! i = Some {| code := Do c k; permits := n |} ->
    handle env c w = Some (r, w') ->
    step {| threads := ts; world := w |}
         {| threads := <[i := {| code := k r; permits := permits_after c n |}]> ts;
            world := w' |}.

(** The step of thread [i], computed: [None] when the thread has ended
    or its call cannot proceed. *)
Definition fire (env : Env) (i : nat) (cfg : Config) : option Config :=
  match threads cfg !! i with
  | Some {| code := Do c k; permits := n |} =>
      match handle env c (world cfg) with
      | Some (r, w') =>
          Some {| threads :=
                    <[i := {| code := k r; permits := permits_after c n |}]>
                      (threads cfg);
                  world := w' |}
      | None => None
      end
  | _ => None
  end.

(** The steps of the threads named by a schedule, one after the other. *)
Fixpoint fire_all (env : Env) (schedule : list nat) (cfg : Config)
  : option Config :=
  match schedule with
  | [] => Some cfg
  | i :: schedule' =>
      match fire env i cfg with
      | Some cfg' => fire_all env schedule' cfg'
      | None => None
      end
  end.

(** The start: every caller about to run its operation, all permits of
    the backend's pool available. *)
Definition start (m : MSSQLBackend) (ops : list Operation)
    (tbl : gmap string bytes) : Config :=
  {| threads := (fun op => {| code := invoke m op; permits := 0 |}) <$> ops;
     world := {| table := tbl; available := capacity (permitPool m) |} |}.

(** A call to the store. *)
Definition store_call (c : Call) : Prop :=
  match c with
  | StmtExec _ _ | StmtQueryRowScan _ _ | StmtQuery _ _ => True
  | _ => False
  end.

(** A thread that is at a statement of the store. *)
Definition at_store (t : Thread) : Prop :=
  match code t with
  | Do c _ => store_call c
  | _ => False
  end.

(** A thread whose operation has come to its end. *)
Definition finished (t : Thread) : Prop :=
  match code t with
  | Ret _ | Panic _ => True
  | Do _ _ => False
  end.

(** What is left of an operation is well bracketed for a thread that
    holds [n] permits: a release only with a permit in hand, a statement
    of the store only with a permit in hand, and no permit in hand at the
    end, whichever way the end is reached. *)
Fixpoint bracketed {A : Type} (n : nat) (p : Prog A) : Prop :=
  match p with
  | Ret _ | Panic _ => n = O
  | Do c k =>
      match c with
      | Release => (0 < n)%nat
      | Acquire => True
      | _ => store_call c -> (0 < n)%nat
      end /\
      forall r, bracketed (permits_after c n) (k r)
  end.

(** A function body that touches no permit. *)
Fixpoint permit_free {A : Type} (p : Prog A) : Prop :=
  match p with
  | Ret _ | Panic _ => True
  | Do c k => c <> Acquire /\ c <> Release /\ forall r, permit_free (k r)
  end.

(** The permits held by all threads together. *)
Definition held (ts : list Thread) : nat := sum_list (permits <$> ts).

(** What every reachable configuration satisfies for a pool of
    [cap] permits. *)
Definition consistent (cap : nat) (cfg : Config) : Prop :=
  (held (threads cfg) + available (world cfg) = cap)%nat /\
  forall t, t ∈ threads cfg -> bracketed (permits t) (code t).

(** The number of threads that hold a permit. *)
Definition holders (cfg : Config) : nat :=
  length (filter (fun t => (0 < permits t)%nat) (threads cfg)).

(** The listing as the specification words it: of the keys that start
    with the prefix, the remainder after the prefix, collapsed to the
    full remainder when it has no separator and to its first segment
    followed by a separator when it has one; without duplicates, in
    ascending order. *)
Definition collapse (remainder : string) : string :=
  match String.index 0 "/" remainder with
  | None => remainder
  | Some i => String.substring 0 i remainder ++ "/"
  end.

Definition listing (prefix : string) (keys : list string) : list string :=
  merge_sort String.le
    (remove_dups
       (collapse <$>
          ((gostrings.drop (String.length prefix)) <$>
             filter (fun key => String.prefix prefix key = true) keys))).

(** Go yields every entry of a map once, and the server returns every
    selected row once; the order is open. *)
Definition fair_range (env : Env) : Prop :=
  forall entries, range_order env entries ≡ₚ entries.

Definition fair_rows (env : Env) : Prop :=
  forall rows, row_order env rows ≡ₚ rows.

(** A backend that [NewMSSQLBackend] returned. *)
Definition constructed (m : MSSQLBackend) : Prop :=
  exists (d : Z) (env : Env) (conf : gmap string string) (w w' : World),
    fair_range env /\
    run env (NewMSSQLBackend d conf) w = Returned (inr m) w'.

(** Every driver call of the run that fails is the last call of the run,
    and the run returns an error whose root cause is that failure. *)
Definition fails_fast {A : Type} (env : Env) (p : Prog (error + A)) (w : World) : Prop :=
  forall (i : nat) (c : Call),
    calls env p w !! i = Some c -> fails env c ->
    S i = length (calls env p w) /\
    exists (e : error) (msg : string),
      run env p w = Returned (inl e) w /\
      fault env c = Some msg /\ root_cause e = DriverError msg.

(** The driver calls of the four operations of a constructed backend. *)
Definition put_call (k : string) (v : bytes) : Call :=
  StmtExec (sql.IfExistsElse (sql.PathEq 0)
              (sql.Update 1 (sql.PathEq 2)) (sql.Insert 3 4))
    [sql.ArgString k; sql.ArgBytes v; sql.ArgString k; sql.ArgString k;
     sql.ArgBytes v].

Definition get_call (k : string) : Call :=
  StmtQueryRowScan (sql.SelectValue (sql.PathEq 0)) [sql.ArgString k].

Definition delete_call (k : string) : Call :=
  StmtExec (sql.Delete (sql.PathEq 0)) [sql.ArgString k].

Definition list_call (prefix : string) : Call :=
  StmtQuery (sql.SelectPath (sql.PathLike 0)) [sql.ArgString (prefix ++ "%")].

(** The call an operation of a constructed backend makes to the store. *)
Definition op_call (op : Operation) : Call :=
  match op with
  | OpPut entry => put_call (Key entry) (Value entry)
  | OpGet key => get_call key
  | OpDelete key => delete_call key
  | OpList prefix => list_call prefix
  end.

(** What is left of an operation asks for a permit only when the thread
    holds none. *)
Fixpoint unhurried {A : Type} (n : nat) (p : Prog A) : Prop :=
  match p with
  | Ret _ | Panic _ => True
  | Do c k =>
      (c = Acquire -> n = O) /\
      forall r, unhurried (permits_after c n) (k r)
  end.

(** A configuration in which some thread has not come to its end. *)
Definition unfinished (cfg : Config) : Prop :=
  exists t, t ∈ threads cfg /\ ~ finished t.

(** A name as [List] returns them: without a separator, or with a single
    one, at its end. *)
Definition listed_name (x : string) : Prop :=
  match String.index 0 "/" x with
  | None => True
  | Some i => S i = String.length x
  end.

(** The configuration the constructor works with: the values set by
    the caller, the legacy names renamed, the defaults filled in. *)
Definition effective (conf : gmap string string) : gmap string string :=
  inject_defaults (upgrade_keys conf).

End mssql.

(** ** Concrete backends, stores and drivers *)

Module mssql_examples.
Import physical mssql.

(** The backend the constructor builds from an empty configuration when
    the default number of parallel operations is 128. *)
Definition backend : MSSQLBackend :=
  {| dbTable := "Vault.dbo.Vault";
     statements := list_to_map statement_list;
     permitPool := NewPermitPool 128 |}.

(** The same with a pool of one permit ([max_parallel = 1]). *)
Definition narrow_backend : MSSQLBackend :=
  {| dbTable := "Vault.dbo.Vault";
     statements := list_to_map statement_list;
     permitPool := NewPermitPool 1 |}.

Definition value : bytes := [Byte.x76; Byte.x31].

(** A store with the given rows and all 128 permits available. *)
Definition store (rows : list (string * bytes)) : World :=
  {| table := list_to_map rows; available := 128 |}.

(** The keys of the specification's listing example. *)
Definition tree : World :=
  store [("a/b", value); ("a/c", value); ("a/d/e", value)].

(** A driver in which preparing the "get" statement fails. *)
Definition get_unprepared : Env :=
  {| fault := fun c =>
       match c with
       | Prepare _ (sql.SelectValue _) => Some "connection reset"
       | _ => None
       end;
     row_order := fun rows => rows;
     scan_fault := fun _ => None;
     schema_found := true;
     range_order := fun entries => entries |}.

(** The result of a run that returns. *)
Definition returned {A : Type} (o : Outcome A) : option A :=
  match o with
  | Returned a _ => Some a
  | _ => None
  end.

(** Two callers of the narrow backend, and the configuration after the
    first has acquired the only permit and the second has not moved. *)
Definition two_callers : Config :=
  start narrow_backend
    [OpPut {| Key := "a/b"; Value := value |}; OpGet "a/b"] ∅.

Definition first_holds : Config :=
  default two_callers (fire calm 0 two_callers).

(** A backend whose statements were never prepared. *)
Definition unprepared_backend : MSSQLBackend :=
  {| dbTable := "Vault.dbo.Vault";
     statements := ∅;
     permitPool := NewPermitPool 128 |}.

(** A driver in which scanning the second row of a result fails. *)
Definition broken_scan : Env :=
  {| fault := fun _ => None;
     row_order := fun rows => rows;
     scan_fault := fun n => match n with 1%nat => Some "bad row" | _ => None end;
     schema_found := true;
     range_order := fun entries => entries |}.

(** A driver that reports the schema as missing. *)
Definition no_schema : Env :=
  {| fault := fun _ => None;
     row_order := fun rows => rows;
     scan_fault := fun _ => None;
     schema_found := false;
     range_order := fun entries => entries |}.

(** A configuration that uses a legacy parameter name next to its new
    name, sets a schema and a number of parallel operations. *)
Definition legacy_conf : gmap string string :=
  list_to_map [("username", "vault"); ("user id", "sa"); ("schema", "secrets");
               ("max_parallel", "4")].

End mssql_examples.

(** * Part II: theorems *)

(** ** package time *)

Module time_facts.

Lemma Sub_in_range (t u : time.Time) :
  time.in_range (t - u) -> time.Sub t u = t - u.
Proof.
  unfold time.in_range, time.Sub. intros [H1 H2].
  destruct (Z_lt_dec _ _); [lia|]. destruct (Z_lt_dec _ _); lia.
Qed.

(** Saturation keeps the sign of the difference. *)
Lemma Sub_pos (t u : time.Time) : time.Sub t u > 0 <-> u < t.
Proof.
  unfold time.Sub, time.maxDuration, time.minDuration.
  destruct (Z_lt_dec _ _); [lia|]. destruct (Z_lt_dec _ _); lia.
Qed.

Lemma Sub_neg (t u : time.Time) : time.Sub t u < 0 <-> t < u.
Proof.
  unfold time.Sub, time.maxDuration, time.minDuration.
  destruct (Z_lt_dec _ _); [lia|]. destruct (Z_lt_dec _ _); lia.
Qed.

Lemma Sub_zero (t u : time.Time) : time.Sub t u = 0 <-> t = u.
Proof.
  unfold time.Sub, time.maxDuration, time.minDuration.
  destruct (Z_lt_dec _ _); [lia|]. destruct (Z_lt_dec _ _); lia.
Qed.

End time_facts.

(** ** logical/framework/lease.go *)

Module framework_facts.
Import logical framework.

Section LeaseFacts.
Context {LeaseFields AuthFields SecretFields RequestFields : Type}.

Abbreviation LeaseOptions := (logical.LeaseOptions LeaseFields).
Abbreviation Request :=
  (logical.Request LeaseFields AuthFields SecretFields RequestFields).

Variable incrementedLease : LeaseOptions -> time.Duration -> time.Duration.
Variable expirationTime : LeaseOptions -> time.Time.

Abbreviation LeaseExtend := (framework.LeaseExtend incrementedLease expirationTime).
Abbreviation admittedLease := (framework.admittedLease incrementedLease expirationTime).

(** A request has a lease context exactly when it has an auth or a
    secret context. *)
Lemma leaseOf_None (req : Request) :
  leaseOf req = None <-> req_Auth req = None /\ req_Secret req = None.
Proof.
  unfold leaseOf, detectLease.
  destruct (req_Auth req), (req_Secret req); simpl; split; intros H;
    try discriminate; try (destruct H; discriminate); auto.
Qed.

(** What a successful call does: the lease field of the picked context
    becomes the admitted lease and nothing else changes. *)
Lemma LeaseExtend_Some (max : time.Duration) (now : time.Time)
    (req : Request) (l : LeaseOptions) :
  leaseOf req = Some l ->
  exists req' resp,
    LeaseExtend max now req = (req', inr resp) /\
    leaseOf req'
    = Some {| Lease := admittedLease max now l;
              LeaseIncrement := LeaseIncrement l;
              lease_fields := lease_fields l |} /\
    resp_Auth resp = req_Auth req' /\ resp_Secret resp = req_Secret req'.
Proof.
  unfold leaseOf, framework.LeaseExtend, detectLease.
  destruct req as [[a|] [s|] f]; simpl; intros [= <-];
    eexists _, _; repeat split; reflexivity.
Qed.

Lemma admittedLease_clamped (max : time.Duration) (now : time.Time)
    (l : LeaseOptions) :
  maxExpiration max now < newExpiration now (incrementedLease l (LeaseIncrement l)) ->
  admittedLease max now l = time.Sub (maxExpiration max now) (expirationTime l).
Proof.
  intros H. unfold framework.admittedLease.
  destruct (Z_gt_dec _ _) as [_|n]; [reflexivity|].
  exfalso. apply n, time_facts.Sub_pos, H.
Qed.

Lemma admittedLease_not_clamped (max : time.Duration) (now : time.Time)
    (l : LeaseOptions) :
  newExpiration now (incrementedLease l (LeaseIncrement l)) <= maxExpiration max now ->
  admittedLease max now l = incrementedLease l (LeaseIncrement l).
Proof.
  intros H. unfold framework.admittedLease.
  destruct (Z_gt_dec _ _) as [g|_]; [|reflexivity].
  apply time_facts.Sub_pos in g. lia.
Qed.

(** C1. When the naive new expiration ([now] plus the requested lease)
    is past [now + max], a renewal with an auth or secret context
    succeeds, and the lease options of that context after the call hold,
    in the field [Lease], the difference between [now + max] and the
    expiration time the context had before the call, as [Time.Sub]
    computes it: the exact difference whenever that fits a Duration.
    The other fields are as before.  The operand subtracted is the
    original expiration time, not [now]. *)
Theorem LeaseExtend_clamped (max : time.Duration) (now : time.Time)
    (req : Request) (l : LeaseOptions) :
  leaseOf req = Some l ->
  maxExpiration max now < newExpiration now (incrementedLease l (LeaseIncrement l)) ->
  exists req' resp,
    LeaseExtend max now req = (req', inr resp) /\
    leaseOf req'
    = Some {| Lease := time.Sub (time.Add now max) (expirationTime l);
              LeaseIncrement := LeaseIncrement l;
              lease_fields := lease_fields l |} /\
    (time.in_range (now + max - expirationTime l) ->
     time.Sub (time.Add now max) (expirationTime l)
     = now + max - expirationTime l).
Proof.
  intros Hl Hmax.
  destruct (LeaseExtend_Some max now req l Hl) as (req' & resp & Hrun & Hl' & _).
  exists req', resp.
  rewrite (admittedLease_clamped max now l Hmax) in Hl'.
  split; [exact Hrun|]. split; [exact Hl'|].
  intros Hr. unfold time.Add. now apply time_facts.Sub_in_range.
Qed.

(** C6. A request with neither an auth nor a secret context makes
    [LeaseExtend] fail with the error "no lease options for request";
    the request after the call is the request before it. *)
Theorem LeaseExtend_no_context (max : time.Duration) (now : time.Time)
    (req : Request) :
  req_Auth req = None -> req_Secret req = None ->
  LeaseExtend max now req = (req, inl (Errorf "no lease options for request")).
Proof.
  intros Ha Hs. unfold framework.LeaseExtend, detectLease.
  now rewrite Ha, Hs.
Qed.

(** C10. In the clamped branch, when the original expiration time is at
    or past [now + max], the call still succeeds and the field [Lease]
    of the context's lease options holds, after the call, a duration
    that is not positive: zero when the two instants coincide, negative
    when the expiration is later. *)
Theorem LeaseExtend_clamped_nonpositive (max : time.Duration) (now : time.Time)
    (req : Request) (l : LeaseOptions) :
  leaseOf req = Some l ->
  maxExpiration max now < newExpiration now (incrementedLease l (LeaseIncrement l)) ->
  time.Add now max <= expirationTime l ->
  exists req' resp v,
    LeaseExtend max now req = (req', inr resp) /\
    leaseOf req'
    = Some {| Lease := v;
              LeaseIncrement := LeaseIncrement l;
              lease_fields := lease_fields l |} /\
    v = time.Sub (time.Add now max) (expirationTime l) /\
    v <= 0 /\
    (expirationTime l = time.Add now max -> v = 0) /\
    (time.Add now max < expirationTime l -> v < 0).
Proof.
  intros Hl Hmax Hexp.
  destruct (LeaseExtend_Some max now req l Hl) as (req' & resp & Hrun & Hl' & _).
  exists req', resp, (time.Sub (time.Add now max) (expirationTime l)).
  rewrite (admittedLease_clamped max now l Hmax) in Hl'.
  unfold maxExpiration in *.
  repeat split; try assumption.
  - destruct (Z.eq_dec (time.Add now max) (expirationTime l)) as [e|ne].
    + apply time_facts.Sub_zero in e. lia.
    + assert (time.Add now max < expirationTime l) as Hlt by lia.
      apply time_facts.Sub_neg in Hlt. lia.
  - intros e. now apply time_facts.Sub_zero.
  - intros Hlt. now apply time_facts.Sub_neg.
Qed.

End LeaseFacts.
End framework_facts.

(** The same with [IncrementedLease] as the specification describes it. *)
Module lease_model_facts.
Import logical framework.
Section LeaseSpecModel.
Context {LeaseFields AuthFields SecretFields RequestFields : Type}.
Variable expirationTime : logical.LeaseOptions LeaseFields -> time.Time.

(** C7.  When the naive new expiration does not exceed [now + max], the
    call succeeds and the field [Lease] of the context's lease options
    holds, after the call, the requested lease unchanged: what is left
    of the current lease at the time of the call plus the requested
    increment (the exact sum whenever it fits a Duration).  The other
    fields are as before.  At lease = 1h, increment = 2h, max = 3h and an
    original expiration equal to [now], that is 2h. *)
Theorem LeaseExtend_not_clamped (max : time.Duration) (now : time.Time)
    (req : logical.Request LeaseFields AuthFields SecretFields RequestFields)
    (l : logical.LeaseOptions LeaseFields) :
  leaseOf req = Some l ->
  newExpiration now (IncrementedLease expirationTime now l (LeaseIncrement l))
    <= maxExpiration max now ->
  exists req' resp,
    LeaseExtend (IncrementedLease expirationTime now) expirationTime max now req
    = (req', inr resp) /\
    leaseOf req'
    = Some {| Lease := time.Sub (time.Add (expirationTime l) (LeaseIncrement l)) now;
              LeaseIncrement := LeaseIncrement l;
              lease_fields := lease_fields l |} /\
    (time.in_range (expirationTime l + LeaseIncrement l - now) ->
     time.Sub (time.Add (expirationTime l) (LeaseIncrement l)) now
     = (expirationTime l - now) + LeaseIncrement l).
Proof.
  intros Hl Hmax.
  destruct (framework_facts.LeaseExtend_Some (IncrementedLease expirationTime now)
              expirationTime max now req l Hl) as (req' & resp & Hrun & Hl' & _).
  exists req', resp.
  rewrite (framework_facts.admittedLease_not_clamped _ _ max now l Hmax) in Hl'.
  split; [exact Hrun|]. split; [exact Hl'|].
  intros Hr. unfold time.Add. rewrite time_facts.Sub_in_range by exact Hr. lia.
Qed.

End LeaseSpecModel.
End lease_model_facts.

Module lease_example_facts.
Import logical framework lease_examples.

Lemma LeaseExtend_clamped_witness :
  let l := leaseOptions time.Hour (7 * time.Hour) (now + time.Hour) in
  let req := authRequest time.Hour (7 * time.Hour) (now + time.Hour) in
  leaseOf req = Some l /\
  maxExpiration (3 * time.Hour) now
    < newExpiration now (IncrementedLease ExpirationTime now l (LeaseIncrement l)) /\
  exists req' resp,
    extend (3 * time.Hour) req = (req', inr resp) /\
    leaseOf req'
    = Some {| Lease := time.Sub (time.Add now (3 * time.Hour)) (ExpirationTime l);
              LeaseIncrement := LeaseIncrement l;
              lease_fields := lease_fields l |} /\
    (time.in_range (now + 3 * time.Hour - ExpirationTime l) ->
     time.Sub (time.Add now (3 * time.Hour)) (ExpirationTime l)
     = now + 3 * time.Hour - ExpirationTime l).
Proof.
  intros l req.
  split; [reflexivity|]. split; [vm_compute; reflexivity|].
  apply (framework_facts.LeaseExtend_clamped
           (IncrementedLease ExpirationTime now) ExpirationTime
           (3 * time.Hour) now req l).
  - reflexivity.
  - vm_compute; reflexivity.
Defined.

(** The same input run through the code: the lease is 2h, which is
    [now + 3h] minus the original expiration [now + 1h], and not the 3h
    that [now + 3h] minus [now] would give. *)
Example LeaseExtend_clamped_run :
  leaseAfter (3 * time.Hour) (authRequest time.Hour (7 * time.Hour) (now + time.Hour))
    = Some (2 * time.Hour).
Proof. vm_compute. reflexivity. Qed.

Example LeaseExtend_clamped_run_secret :
  leaseAfter (3 * time.Hour) (secretRequest time.Hour (7 * time.Hour) (now + time.Hour))
    = Some (2 * time.Hour).
Proof. vm_compute. reflexivity. Qed.

Lemma LeaseExtend_no_context_witness :
  req_Auth bareRequest = None /\ req_Secret bareRequest = None /\
  extend (3 * time.Hour) bareRequest
    = (bareRequest, inl (Errorf "no lease options for request")).
Proof.
  split; [reflexivity|]. split; [reflexivity|].
  apply (framework_facts.LeaseExtend_no_context
           (IncrementedLease ExpirationTime now) ExpirationTime);
    reflexivity.
Defined.

Lemma LeaseExtend_clamped_nonpositive_witness :
  let l := leaseOptions time.Hour (7 * time.Hour) (now + 5 * time.Hour) in
  let req := authRequest time.Hour (7 * time.Hour) (now + 5 * time.Hour) in
  leaseOf req = Some l /\
  maxExpiration (3 * time.Hour) now
    < newExpiration now (IncrementedLease ExpirationTime now l (LeaseIncrement l)) /\
  time.Add now (3 * time.Hour) <= ExpirationTime l /\
  exists req' resp v,
    extend (3 * time.Hour) req = (req', inr resp) /\
    leaseOf req'
    = Some {| Lease := v;
              LeaseIncrement := LeaseIncrement l;
              lease_fields := lease_fields l |} /\
    v = time.Sub (time.Add now (3 * time.Hour)) (ExpirationTime l) /\
    v <= 0 /\
    (ExpirationTime l = time.Add now (3 * time.Hour) -> v = 0) /\
    (time.Add now (3 * time.Hour) < ExpirationTime l -> v < 0).
Proof.
  intros l req.
  split; [reflexivity|]. split; [vm_compute; reflexivity|].
  split; [vm_compute; discriminate|].
  apply (framework_facts.LeaseExtend_clamped_nonpositive
           (IncrementedLease ExpirationTime now) ExpirationTime
           (3 * time.Hour) now req l).
  - reflexivity.
  - vm_compute; reflexivity.
  - vm_compute; discriminate.
Defined.

Example LeaseExtend_negative_run :
  leaseAfter (3 * time.Hour) (authRequest time.Hour (7 * time.Hour) (now + 5 * time.Hour))
    = Some (- (2 * time.Hour)).
Proof. vm_compute. reflexivity. Qed.

Lemma LeaseExtend_not_clamped_witness :
  let l := leaseOptions time.Hour (2 * time.Hour) now in
  let req := authRequest time.Hour (2 * time.Hour) now in
  leaseOf req = Some l /\
  newExpiration now (IncrementedLease ExpirationTime now l (LeaseIncrement l))
    <= maxExpiration (3 * time.Hour) now /\
  time.Sub (time.Add (ExpirationTime l) (LeaseIncrement l)) now = 2 * time.Hour /\
  exists req' resp,
    extend (3 * time.Hour) req = (req', inr resp) /\
    leaseOf req'
    = Some {| Lease := time.Sub (time.Add (ExpirationTime l) (LeaseIncrement l)) now;
              LeaseIncrement := LeaseIncrement l;
              lease_fields := lease_fields l |} /\
    (time.in_range (ExpirationTime l + LeaseIncrement l - now) ->
     time.Sub (time.Add (ExpirationTime l) (LeaseIncrement l)) now
     = (ExpirationTime l - now) + LeaseIncrement l).
Proof.
  intros l req.
  split; [reflexivity|]. split; [vm_compute; discriminate|].
  split; [vm_compute; reflexivity|].
  apply (lease_model_facts.LeaseExtend_not_clamped ExpirationTime
           (3 * time.Hour) now req l).
  - reflexivity.
  - vm_compute; discriminate.
Defined.

(** The same input run through the code: with lease = 1h, increment =
    2h, max = 3h and the original expiration equal to [now], the new
    lease is 2h. *)
Example LeaseExtend_example_run :
  leaseAfter (3 * time.Hour) (authRequest time.Hour (2 * time.Hour) now)
    = Some (2 * time.Hour).
Proof. vm_compute. reflexivity. Qed.

End lease_example_facts.

(** ** lease.go: which context is renewed, and how the new lease
    compares with [max] *)

Module lease_more_facts.
Import logical framework.
Section LeaseMore.
Context {LeaseFields AuthFields SecretFields RequestFields : Type}.
Variable incrementedLease :
  logical.LeaseOptions LeaseFields -> time.Duration -> time.Duration.
Variable expirationTime : logical.LeaseOptions LeaseFields -> time.Time.

(** X1. With an auth context on the request, [LeaseExtend] succeeds and acts
    on it, whether or not there is a secret context as well: the auth
    context gets the admitted lease; its other fields, the secret context
    and the rest of the request stay as they were; the response carries
    the auth context as changed and the secret context as it was. *)
Theorem LeaseExtend_auth_first (max : time.Duration) (now : time.Time)
    (req : logical.Request LeaseFields AuthFields SecretFields RequestFields)
    (a : logical.Auth LeaseFields AuthFields) :
  req_Auth req = Some a ->
  exists v,
    v = admittedLease incrementedLease expirationTime max now (auth_LeaseOptions a) /\
    LeaseExtend incrementedLease expirationTime max now req
    = ({| req_Auth :=
            Some {| auth_LeaseOptions :=
                      {| Lease := v;
                         LeaseIncrement := LeaseIncrement (auth_LeaseOptions a);
                         lease_fields := lease_fields (auth_LeaseOptions a) |};
                    auth_fields := auth_fields a |};
          req_Secret := req_Secret req;
          req_fields := req_fields req |},
       inr {| resp_Auth :=
                Some {| auth_LeaseOptions :=
                          {| Lease := v;
                             LeaseIncrement := LeaseIncrement (auth_LeaseOptions a);
                             lease_fields := lease_fields (auth_LeaseOptions a) |};
                        auth_fields := auth_fields a |};
              resp_Secret := req_Secret req |}).
Proof.
  intros Ha. eexists. split; [reflexivity|].
  unfold LeaseExtend, detectLease. rewrite Ha. reflexivity.
Qed.

(** X2. When the lease has not yet expired at the time of the call (its
    expiration time is not before [now]) and [max] is a Duration, the
    call succeeds and the field [Lease] of the context's lease options
    holds, after the call, a duration that does not exceed [max],
    clamped or not.  The other fields are as before. *)
Theorem LeaseExtend_at_most_max (max : time.Duration) (now : time.Time)
    (req : logical.Request LeaseFields AuthFields SecretFields RequestFields)
    (l : logical.LeaseOptions LeaseFields) :
  leaseOf req = Some l ->
  time.in_range max ->
  now <= expirationTime l ->
  exists req' resp v,
    LeaseExtend incrementedLease expirationTime max now req = (req', inr resp) /\
    leaseOf req'
    = Some {| Lease := v;
              LeaseIncrement := LeaseIncrement l;
              lease_fields := lease_fields l |} /\
    v <= max.
Proof.
  intros Hl Hmax Hexp.
  destruct (framework_facts.LeaseExtend_Some incrementedLease expirationTime
              max now req l Hl) as (req' & resp & Hrun & Hl' & _).
  exists req', resp, (admittedLease incrementedLease expirationTime max now l).
  split; [exact Hrun|]. split; [exact Hl'|].
  unfold admittedLease.
  destruct (Z_gt_dec _ _) as [g|ng].
  - clear g.
    unfold maxExpiration, time.Add, time.Sub, time.in_range,
      time.minDuration, time.maxDuration in *.
    destruct (Z_lt_dec _ _); [lia|]. destruct (Z_lt_dec _ _); lia.
  - assert (~ maxExpiration max now
              < newExpiration now (incrementedLease l (LeaseIncrement l))) as H.
    { intros H. apply ng. now apply time_facts.Sub_pos. }
    unfold maxExpiration, newExpiration, time.Add in H. lia.
Qed.

(** X3. When the lease has already expired at the time of the call, the
    clamped branch leaves in the field [Lease] of the context's lease
    options a duration longer than [max]: the time since the expiration
    comes on top of [max].  The other fields are as before. *)
Theorem LeaseExtend_expired_exceeds_max (max : time.Duration) (now : time.Time)
    (req : logical.Request LeaseFields AuthFields SecretFields RequestFields)
    (l : logical.LeaseOptions LeaseFields) :
  leaseOf req = Some l ->
  maxExpiration max now < newExpiration now (incrementedLease l (LeaseIncrement l)) ->
  expirationTime l < now ->
  time.in_range (now + max - expirationTime l) ->
  exists req' resp v,
    LeaseExtend incrementedLease expirationTime max now req = (req', inr resp) /\
    leaseOf req'
    = Some {| Lease := v;
              LeaseIncrement := LeaseIncrement l;
              lease_fields := lease_fields l |} /\
    v = max + (now - expirationTime l) /\
    max < v.
Proof.
  intros Hl Hclamp Hexp Hr.
  destruct (framework_facts.LeaseExtend_Some incrementedLease expirationTime
              max now req l Hl) as (req' & resp & Hrun & Hl' & _).
  exists req', resp, (admittedLease incrementedLease expirationTime max now l).
  split; [exact Hrun|]. split; [exact Hl'|].
  rewrite (framework_facts.admittedLease_clamped _ _ max now l Hclamp).
  unfold maxExpiration, time.Add. rewrite time_facts.Sub_in_range by exact Hr.
  lia.
Qed.

End LeaseMore.
End lease_more_facts.

Module lease_more_example_facts.
Import logical framework lease_examples.

Lemma LeaseExtend_auth_first_witness :
  let a := {| auth_LeaseOptions := leaseOptions time.Hour (7 * time.Hour) (now + time.Hour);
              auth_fields := tt |} in
  let s := {| secret_LeaseOptions := leaseOptions (5 * time.Hour) time.Hour (now + time.Hour);
              secret_fields := tt |} in
  let req := {| req_Auth := Some a; req_Secret := Some s; req_fields := tt |} in
  req_Auth req = Some a /\
  exists v,
    v = admittedLease (IncrementedLease ExpirationTime now) ExpirationTime
          (3 * time.Hour) now (auth_LeaseOptions a) /\
    extend (3 * time.Hour) req
    = ({| req_Auth :=
            Some {| auth_LeaseOptions :=
                      {| Lease := v;
                         LeaseIncrement := LeaseIncrement (auth_LeaseOptions a);
                         lease_fields := lease_fields (auth_LeaseOptions a) |};
                    auth_fields := auth_fields a |};
          req_Secret := req_Secret req;
          req_fields := req_fields req |},
       inr {| resp_Auth :=
                Some {| auth_LeaseOptions :=
                          {| Lease := v;
                             LeaseIncrement := LeaseIncrement (auth_LeaseOptions a);
                             lease_fields := lease_fields (auth_LeaseOptions a) |};
                        auth_fields := auth_fields a |};
              resp_Secret := req_Secret req |}).
Proof.
  intros a s req. split; [reflexivity|].
  apply (lease_more_facts.LeaseExtend_auth_first
           (IncrementedLease ExpirationTime now) ExpirationTime
           (3 * time.Hour) now req a).
  reflexivity.
Defined.

(** The same request run through the code: the auth lease becomes 2h,
    the secret lease stays at 5h. *)
Example LeaseExtend_auth_first_run :
  let a := {| auth_LeaseOptions := leaseOptions time.Hour (7 * time.Hour) (now + time.Hour);
              auth_fields := tt |} in
  let s := {| secret_LeaseOptions := leaseOptions (5 * time.Hour) time.Hour (now + time.Hour);
              secret_fields := tt |} in
  let req' := (extend (3 * time.Hour)
                 {| req_Auth := Some a; req_Secret := Some s; req_fields := tt |}).1 in
  (Lease ∘ auth_LeaseOptions) <$> req_Auth req' = Some (2 * time.Hour) /\
  (Lease ∘ secret_LeaseOptions) <$> req_Secret req' = Some (5 * time.Hour).
Proof. vm_compute. split; reflexivity. Qed.

Lemma LeaseExtend_at_most_max_witness :
  let l := leaseOptions time.Hour (7 * time.Hour) (now + time.Hour) in
  let req := secretRequest time.Hour (7 * time.Hour) (now + time.Hour) in
  leaseOf req = Some l /\ time.in_range (3 * time.Hour) /\ now <= ExpirationTime l /\
  exists req' resp v,
    extend (3 * time.Hour) req = (req', inr resp) /\
    leaseOf req'
    = Some {| Lease := v;
              LeaseIncrement := LeaseIncrement l;
              lease_fields := lease_fields l |} /\
    v <= 3 * time.Hour.
Proof.
  intros l req.
  split; [reflexivity|].
  split; [split; vm_compute; discriminate|].
  split; [vm_compute; discriminate|].
  apply (lease_more_facts.LeaseExtend_at_most_max
           (IncrementedLease ExpirationTime now) ExpirationTime
           (3 * time.Hour) now req l).
  - reflexivity.
  - split; vm_compute; discriminate.
  - vm_compute; discriminate.
Defined.

Lemma LeaseExtend_expired_exceeds_max_witness :
  let l := leaseOptions time.Hour (7 * time.Hour) (now - time.Hour) in
  let req := authRequest time.Hour (7 * time.Hour) (now - time.Hour) in
  leaseOf req = Some l /\
  maxExpiration (3 * time.Hour) now
    < newExpiration now (IncrementedLease ExpirationTime now l (LeaseIncrement l)) /\
  ExpirationTime l < now /\
  time.in_range (now + 3 * time.Hour - ExpirationTime l) /\
  exists req' resp v,
    extend (3 * time.Hour) req = (req', inr resp) /\
    leaseOf req'
    = Some {| Lease := v;
              LeaseIncrement := LeaseIncrement l;
              lease_fields := lease_fields l |} /\
    v = 3 * time.Hour + (now - ExpirationTime l) /\
    3 * time.Hour < v.
Proof.
  intros l req.
  split; [reflexivity|]. split; [vm_compute; reflexivity|].
  split; [vm_compute; reflexivity|].
  split; [split; vm_compute; discriminate|].
  apply (lease_more_facts.LeaseExtend_expired_exceeds_max
           (IncrementedLease ExpirationTime now) ExpirationTime
           (3 * time.Hour) now req l).
  - reflexivity.
  - vm_compute; reflexivity.
  - vm_compute; reflexivity.
  - split; vm_compute; discriminate.
Defined.

(** The same input run through the code: with [max] at 3h, a lease that
    expired an hour ago is renewed for 4h. *)
Example LeaseExtend_expired_run :
  leaseAfter (3 * time.Hour) (authRequest time.Hour (7 * time.Hour) (now - time.Hour))
    = Some (4 * time.Hour).
Proof. vm_compute. reflexivity. Qed.

End lease_more_example_facts.

(** ** The SQL statements of the backend *)

Module sql_facts.
Import sql.

Lemma select_eq (k : string) (tbl : gmap string bytes) :
  select (fun path => bool_decide (path = k)) tbl
  = match tbl !! k with Some v => {[ k := v ]} | None => ∅ end.
Proof.
  assert (forall i x, tbl !! i = Some x ->
            (guard (bool_decide (i = k) = true);; Some x) =
            if decide (i = k) then Some x else None) as Hg.
  { intros i x _. destruct (decide (i = k)) as [->|Hne].
    - now rewrite option_guard_True by (now apply bool_decide_eq_true).
    - now rewrite option_guard_False by (rewrite bool_decide_eq_true; congruence). }
  destruct (tbl !! k) as [v|] eqn:E; apply map_eq; intros i; unfold select;
    rewrite map_lookup_filter; simpl.
  - destruct (tbl !! i) as [x|] eqn:Ei; simpl.
    + rewrite (Hg i x Ei). destruct (decide (i = k)) as [->|Hne].
      * rewrite lookup_singleton_eq. congruence.
      * now rewrite lookup_singleton_ne by congruence.
    + rewrite lookup_singleton_ne; [reflexivity|]. congruence.
  - rewrite lookup_empty. destruct (tbl !! i) as [x|] eqn:Ei; simpl; [|reflexivity].
    rewrite (Hg i x Ei). destruct (decide (i = k)) as [->|Hne]; congruence.
Qed.

Lemma select_eq_empty (k : string) (tbl : gmap string bytes) :
  select (fun path => bool_decide (path = k)) tbl = ∅ <-> tbl !! k = None.
Proof.
  rewrite select_eq. destruct (tbl !! k) as [v|]; split; try easy.
Qed.

(** The "put" statement with (key, value, key, key, value): an upsert. *)
Lemma exec_put (k : string) (v : bytes) (tbl : gmap string bytes) :
  exec (IfExistsElse (PathEq 0) (Update 1 (PathEq 2)) (Insert 3 4))
       [ArgString k; ArgBytes v; ArgString k; ArgString k; ArgBytes v] tbl
  = if bool_decide (is_Some (tbl !! k)) then inr (<[k := v]> tbl)
    else if bool_decide (path_limit < String.length k)%nat
    then inl (DriverError "String or binary data would be truncated")
    else inr (<[k := v]> tbl).
Proof.
  simpl. unfold arg_string, arg_bytes. simpl.
  destruct (tbl !! k) as [old|] eqn:E.
  - rewrite bool_decide_eq_false_2
      by (rewrite select_eq_empty; congruence).
    rewrite (bool_decide_eq_true_2 (is_Some (Some old))) by eauto.
    f_equal. apply map_eq. intros i. rewrite map_lookup_imap.
    destruct (decide (i = k)) as [->|Hne].
    + rewrite E, lookup_insert_eq. simpl.
      now rewrite bool_decide_eq_true_2.
    + rewrite lookup_insert_ne by congruence.
      destruct (tbl !! i); simpl; [|reflexivity].
      now rewrite bool_decide_eq_false_2.
  - rewrite bool_decide_eq_true_2 by (now apply select_eq_empty).
    rewrite (bool_decide_eq_false_2 (is_Some None)) by (intros [? ?]; discriminate).
    destruct (bool_decide _); reflexivity.
Qed.

Lemma exec_delete (k : string) (tbl : gmap string bytes) :
  exec (Delete (PathEq 0)) [ArgString k] tbl = inr (delete k tbl).
Proof.
  simpl. f_equal. apply map_eq. intros i.
  rewrite map_lookup_filter. simpl.
  destruct (decide (i = k)) as [->|Hne].
  - rewrite lookup_delete_eq. destruct (tbl !! k); simpl; [|reflexivity].
    rewrite option_guard_False; [reflexivity|].
    rewrite bool_decide_eq_true_2 by reflexivity. discriminate.
  - rewrite lookup_delete_ne by congruence.
    destruct (tbl !! i); simpl; [|reflexivity].
    rewrite option_guard_True; [reflexivity|].
    now apply bool_decide_eq_false_2.
Qed.

Lemma result_set_get (k : string) (tbl : gmap string bytes) :
  result_set (SelectValue (PathEq 0)) [ArgString k] tbl
  = match tbl !! k with Some v => [CellBytes v] | None => [] end.
Proof.
  simpl. rewrite select_eq. destruct (tbl !! k).
  - now rewrite map_to_list_singleton.
  - now rewrite map_to_list_empty.
Qed.

End sql_facts.

(** ** Go strings *)

Module gostrings_facts.
Import gostrings.

Lemma string_app_assoc (a b c : string) : (a ++ b) ++ c = a ++ (b ++ c).
Proof.
  induction a as [|x a IH]; [reflexivity|].
  change (String x ((a ++ b) ++ c) = String x (a ++ (b ++ c))).
  now rewrite IH.
Qed.

Lemma like_any (s : string) : sql.like "%" s = true.
Proof.
  induction s as [|c s IH]; [reflexivity|].
  simpl in *. exact IH.
Qed.

(** A pattern made of a literal prefix and [%] selects the strings that
    start with the prefix. *)
Lemma like_literal (p s : string) :
  sql.literal p = true -> sql.like (p ++ "%") s = String.prefix p s.
Proof.
  revert s. induction p as [|c p IH]; intros s Hl.
  - change (sql.like "%" s = String.prefix "" s).
    rewrite (like_any s). now destruct s.
  - simpl in Hl.
    destruct (Ascii.eqb c "%") eqn:E1; [discriminate|].
    destruct (Ascii.eqb c "_") eqn:E2; [discriminate|].
    destruct (Ascii.eqb c "[") eqn:E3; [discriminate|]. simpl in Hl.
    change (String c p ++ "%") with (String c (p ++ "%")).
    simpl. rewrite E1, E2. destruct s as [|d s]; [reflexivity|].
    rewrite (IH s Hl).
    destruct (ascii_dec c d) as [->|Hne].
    + rewrite Ascii.eqb_refl. simpl.
      destruct (ascii_dec d d); [reflexivity|contradiction].
    + simpl. destruct (ascii_dec c d); [contradiction|].
      apply Ascii.eqb_neq in Hne. now rewrite Hne.
Qed.

Lemma prefix_split (p s : string) :
  String.prefix p s = true -> s = p ++ drop (String.length p) s.
Proof.
  revert s. induction p as [|c p IH]; intros s H; [reflexivity|].
  destruct s as [|d s]; [discriminate|]. simpl in H.
  destruct (ascii_dec c d) as [->|]; [|discriminate].
  change (String d s = String d (p ++ drop (String.length p) s)).
  f_equal. now apply IH.
Qed.

Lemma TrimPrefix_prefix (p s : string) :
  String.prefix p s = true -> TrimPrefix s p = drop (String.length p) s.
Proof. intros H. unfold TrimPrefix, HasPrefix. now rewrite H. Qed.

Lemma index_slash_cons (b : ascii) (s : string) :
  String.index 0 "/" (String b s)
  = if ascii_dec "/" b then Some 0%nat else S <$> String.index 0 "/" s.
Proof.
  cbn [String.index String.prefix]. destruct (ascii_dec "/" b).
  - now destruct s.
  - now destruct (String.index 0 "/" s).
Qed.

Lemma collapse_cons (b : ascii) (s : string) :
  mssql.collapse (String b s)
  = if ascii_dec "/" b then "/" else String b (mssql.collapse s).
Proof.
  unfold mssql.collapse. rewrite index_slash_cons.
  destruct (ascii_dec "/" b); [reflexivity|].
  destruct (String.index 0 "/" s); reflexivity.
Qed.

(** Collapsing keeps the position of the first separator. *)
Lemma index_collapse (s : string) :
  String.index 0 "/" (mssql.collapse s) = String.index 0 "/" s.
Proof.
  induction s as [|b s IH]; [reflexivity|].
  rewrite collapse_cons, !index_slash_cons.
  destruct (ascii_dec "/" b); [reflexivity|].
  rewrite index_slash_cons. destruct (ascii_dec "/" b); [contradiction|].
  now rewrite IH.
Qed.

Lemma Index_None (s : string) :
  Index s "/" = -1 <-> String.index 0 "/" s = None.
Proof.
  unfold Index. destruct (String.index 0 "/" s); split; try easy. lia.
Qed.

(** What the loop keeps of a remainder with a separator: [key[:i+1]]. *)
Lemma slice_collapse (s : string) :
  String.index 0 "/" s <> None ->
  slice_to s (Index s "/" + 1) = mssql.collapse s.
Proof.
  unfold slice_to, Index. induction s as [|b s IH]; [easy|].
  rewrite collapse_cons, index_slash_cons.
  destruct (ascii_dec "/" b) as [<-|Hne].
  { intros _. change (Z.to_nat (Z.of_nat 0 + 1)) with 1%nat.
    cbn [String.substring]. now destruct s. }
  destruct (String.index 0 "/" s) as [i|] eqn:Ei; [|easy]. intros _.
  cbn [fmap option_fmap option_map].
  assert (Z.to_nat (Z.of_nat (S i) + 1) = S (Z.to_nat (Z.of_nat i + 1))) as -> by lia.
  cbn [String.substring]. f_equal. now apply IH.
Qed.

Lemma collapse_no_slash (s : string) :
  String.index 0 "/" s = None -> mssql.collapse s = s.
Proof. unfold mssql.collapse. now intros ->. Qed.

End gostrings_facts.

(** ** physical/mssql/mssql.go *)

Module mssql_facts.
Import physical mssql gostrings gostrings_facts sql_facts.

Lemma run_bind {A B : Type} (env : Env) (p : Prog A) (f : A -> Prog B) (w : World) :
  run env (bind p f) w
  = match run env p w with
    | Returned a w' => run env (f a) w'
    | Panicked msg w' => Panicked msg w'
    | Blocked => Blocked
    end.
Proof.
  revert w. induction p as [a|msg|c k IH]; intros w; simpl; try reflexivity.
  destruct (handle env c w) as [[r w']|]; [apply IH|reflexivity].
Qed.

Lemma handle_None (env : Env) (c : Call) (w : World) :
  handle env c w = None -> c = Acquire.
Proof.
  destruct c; simpl; try discriminate; try reflexivity.
  - now destruct (sql.Stmt_Exec _ _ _ _).
  - now destruct (sql.Stmt_QueryRow_Scan _ _ _ _ _ _).
  - now destruct (sql.Stmt_Query _ _ _ _ _ _).
  - now destruct (fault env _).
  - now destruct (fault env _).
Qed.

(** *** The constructor *)

Lemma fails_fast_check {A : Type} (env : Env) (c : Call)
    (reply : Reply c -> option error) (format : string)
    (rest : Prog (error + A)) (w : World) :
  (forall r w', handle env c w = Some (r, w') ->
     w' = w /\
     match reply r with
     | Some e => exists msg, fault env c = Some msg /\ e = DriverError msg
     | None => ~ fails env c
     end) ->
  fails_fast env rest w ->
  fails_fast env (Do c (fun r => check (reply r) format rest)) w.
Proof.
  intros Hc Hrest i c' Hi Hf. simpl in *.
  destruct (handle env c w) as [[r w']|] eqn:Hh.
  - destruct (Hc r w' eq_refl) as [-> Hr].
    destruct (reply r) as [e|] eqn:Er; simpl in *.
    + destruct Hr as (msg & Hmsg & ->).
      destruct i as [|[|i]]; simpl in Hi; try discriminate.
      injection Hi as <-. split; [reflexivity|].
      exists (Wrapf format (DriverError msg)), msg. auto.
    + destruct i as [|i]; simpl in Hi.
      * injection Hi as <-. contradiction.
      * destruct (Hrest i c' Hi Hf) as [Hlen Hrun].
        split; [now rewrite <- Hlen|exact Hrun].
  - destruct i as [|[|i]]; simpl in Hi; try discriminate.
    injection Hi as <-. apply handle_None in Hh. subst c. contradiction.
Qed.

Lemma fails_fast_skip {A : Type} (env : Env) (c : Call)
    (k : Reply c -> Prog (error + A)) (w : World) (r : Reply c) :
  handle env c w = Some (r, w) -> ~ fails env c ->
  fails_fast env (k r) w ->
  fails_fast env (Do c k) w.
Proof.
  intros Hh Hnf Hrest i c' Hi Hf. simpl in *. rewrite Hh in *.
  destruct i as [|i]; simpl in Hi.
  - injection Hi as <-. contradiction.
  - destruct (Hrest i c' Hi Hf) as [Hlen Hrun].
    split; [now rewrite <- Hlen|exact Hrun].
Qed.

Lemma fails_fast_Ret {A : Type} (env : Env) (r : error + A) (w : World) :
  fails_fast env (Ret r) w.
Proof. intros i c Hi. simpl in Hi. now rewrite lookup_nil in Hi. Qed.

Lemma driver_reply (env : Env) (c : Call) :
  match driver_error (fault env c) with
  | Some e => exists msg, fault env c = Some msg /\ e = DriverError msg
  | None => fault env c = None
  end.
Proof. destruct (fault env c) as [msg|]; simpl; eauto. Qed.

Lemma fails_fast_DBExec {A : Type} (env : Env) (q format : string)
    (rest : Prog (error + A)) (w : World) :
  fails_fast env rest w ->
  fails_fast env (Do (DBExec q) (fun err => check err format rest)) w.
Proof.
  intros Hrest. apply (fails_fast_check env (DBExec q) (fun r => r)); [|exact Hrest].
  simpl. intros r w' [= <- <-]. split; [reflexivity|].
  pose proof (driver_reply env (DBExec q)) as H.
  destruct (driver_error _); [exact H|]. simpl. rewrite H. now intros [? ?].
Qed.

Lemma fails_fast_prepare_all (env : Env) (entries : list (string * sql.Query))
    (m : MSSQLBackend) (w : World) :
  fails_fast env (prepare_all m entries) w.
Proof.
  revert m. induction entries as [|[name query] entries IH]; intros m.
  - apply fails_fast_Ret.
  - intros i c Hi Hf. simpl in *.
    destruct (fault env (Prepare (dbTable m) query)) as [msg|] eqn:Ef; simpl in *.
    + destruct i as [|[|i]]; simpl in Hi; try discriminate.
      injection Hi as <-. split; [reflexivity|]. eauto.
    + destruct i as [|i]; simpl in Hi.
      * injection Hi as <-. simpl in Hf. rewrite Ef in Hf. now destruct Hf.
      * destruct (IH _ i c Hi Hf) as [Hlen Hrun].
        split; [now rewrite <- Hlen|exact Hrun].
Qed.

Lemma fails_fast_create_table (env : Env) (maxParInt : Z)
    (database schema table : string) (w : World) :
  fails_fast env (create_table maxParInt database schema table) w.
Proof.
  unfold create_table. cbv zeta. simpl bind.
  apply fails_fast_DBExec.
  eapply fails_fast_skip; [reflexivity|simpl; tauto|].
  apply fails_fast_prepare_all.
Qed.

Lemma fails_fast_ensure_schema (env : Env) (database schema : string)
    (rest : Prog (error + MSSQLBackend)) (w : World) :
  fails_fast env rest w ->
  fails_fast env (ensure_schema database schema rest) w.
Proof.
  intros Hrest. unfold ensure_schema.
  destruct (bool_decide _); [|exact Hrest]. simpl bind.
  apply fails_fast_DBExec.
  intros i c Hi Hf. simpl in *.
  destruct (fault env (DBQueryRowScan _)) as [msg|] eqn:Ef; simpl in *.
  - destruct i as [|[|i]]; simpl in Hi; try discriminate.
    injection Hi as <-. split; [reflexivity|]. eauto.
  - destruct i as [|i]; simpl in Hi.
    { injection Hi as <-. simpl in Hf. rewrite Ef in Hf. now destruct Hf. }
    destruct (schema_found env); simpl in *.
    + destruct (Hrest i c Hi Hf) as [Hlen Hrun].
      split; [now rewrite <- Hlen|exact Hrun].
    + destruct (fails_fast_DBExec env ("CREATE SCHEMA " ++ schema)
                  "failed to create mssql schema: {{err}}" rest w Hrest i c Hi Hf)
        as [Hlen Hrun].
      simpl in Hlen, Hrun. split; [now rewrite <- Hlen|exact Hrun].
Qed.

Lemma run_prepare_all (env : Env) (entries : list (string * sql.Query))
    (m m' : MSSQLBackend) (w w' : World) :
  run env (prepare_all m entries) w = Returned (inr m') w' ->
  w' = w /\ dbTable m' = dbTable m /\ permitPool m' = permitPool m /\
  statements m'
  = foldl (fun acc e => <[e.1 := e.2]> acc) (statements m) entries.
Proof.
  revert m. induction entries as [|[name query] entries IH]; intros m; simpl.
  - intros [= <- <-]. auto.
  - destruct (fault env (Prepare (dbTable m) query)); simpl; [discriminate|].
    intros H. apply IH in H. simpl in H. exact H.
Qed.

Lemma statements_of_permutation (entries : list (string * sql.Query)) :
  entries ≡ₚ statement_list ->
  foldl (fun acc e => <[e.1 := e.2]> acc) (∅ : gmap string sql.Query) entries
  = list_to_map statement_list.
Proof.
  intros Hp.
  assert (forall (l : list (string * sql.Query)) (acc : gmap string sql.Query),
            foldl (fun acc e => <[e.1 := e.2]> acc) acc l
            = list_to_map (reverse l) ∪ acc) as Hfold.
  { induction l as [|[n q] l IH]; intros acc; simpl.
    - now rewrite (left_id_L ∅ (∪)).
    - rewrite IH, reverse_cons, list_to_map_app. simpl.
      rewrite <- (assoc_L (∪)). f_equal.
      rewrite insert_empty. now rewrite <- insert_union_singleton_l. }
  rewrite Hfold, (right_id_L ∅ (∪)).
  apply list_to_map_proper.
  - rewrite reverse_Permutation, Hp. simpl.
    apply (bool_decide_unpack _). vm_compute. exact I.
  - now rewrite reverse_Permutation.
Qed.

Lemma run_create_table (env : Env) (maxParInt : Z) (database schema table : string)
    (m : MSSQLBackend) (w w' : World) :
  run env (create_table maxParInt database schema table) w = Returned (inr m) w' ->
  w' = w /\
  permitPool m = NewPermitPool maxParInt /\
  statements m
  = foldl (fun acc e => <[e.1 := e.2]> acc) ∅ (range_order env statement_list).
Proof.
  unfold create_table. cbv zeta. simpl.
  destruct (fault env (DBExec _)); simpl; [discriminate|].
  intros H. apply run_prepare_all in H. simpl in H. tauto.
Qed.

Lemma run_ensure_schema (env : Env) (database schema : string)
    (rest : Prog (error + MSSQLBackend)) (m : MSSQLBackend) (w w' : World) :
  run env (ensure_schema database schema rest) w = Returned (inr m) w' ->
  run env rest w = Returned (inr m) w'.
Proof.
  unfold ensure_schema. destruct (bool_decide _); [|tauto]. simpl.
  destruct (fault env (DBExec _)); simpl; [discriminate|].
  destruct (fault env (DBQueryRowScan _)); simpl; [discriminate|].
  destruct (schema_found env); simpl; [tauto|].
  destruct (fault env (DBExec _)); simpl; [discriminate|tauto].
Qed.

(** What the constructor returns when it returns a backend: all four
    statements, and a permit pool of the configured size. *)
Lemma run_NewMSSQLBackend (d : Z) (env : Env) (conf : gmap string string)
    (m : MSSQLBackend) (w w' : World) :
  fair_range env ->
  run env (NewMSSQLBackend d conf) w = Returned (inr m) w' ->
  w' = w /\
  statements m = list_to_map statement_list /\
  exists maxParInt,
    match conf !! "max_parallel" with
    | Some s => strconv.Atoi s
    | None => inr d
    end = inr maxParInt /\
    permitPool m = NewPermitPool maxParInt.
Proof.
  intros Hfair. unfold NewMSSQLBackend.
  destruct (match conf !! "max_parallel" with
            | Some s => strconv.Atoi s | None => inr d end) as [err|maxParInt];
    [discriminate|].
  cbv zeta. simpl.
  destruct (fault env (Open _ _)); simpl; [discriminate|].
  destruct (fault env (DBExec _)); simpl; [discriminate|].
  intros H. apply run_ensure_schema, run_create_table in H.
  destruct H as (-> & Hpool & Hst). split; [reflexivity|]. split.
  - rewrite Hst. apply statements_of_permutation, Hfair.
  - eauto.
Qed.

Lemma constructed_statements (m : MSSQLBackend) :
  constructed m -> statements m = list_to_map statement_list.
Proof.
  intros (d & env & conf & w & w' & Hfair & Hrun).
  now apply run_NewMSSQLBackend in Hrun.
Qed.

Lemma constructed_lookup (m : MSSQLBackend) :
  constructed m ->
  statements m !! "put"
    = Some (sql.IfExistsElse (sql.PathEq 0)
              (sql.Update 1 (sql.PathEq 2)) (sql.Insert 3 4)) /\
  statements m !! "get" = Some (sql.SelectValue (sql.PathEq 0)) /\
  statements m !! "delete" = Some (sql.Delete (sql.PathEq 0)) /\
  statements m !! "list" = Some (sql.SelectPath (sql.PathLike 0)).
Proof.
  intros H. rewrite (constructed_statements m H). repeat split; reflexivity.
Qed.

(** The text handed to [Prepare] is the text mssql.go builds. *)
Lemma statement_texts (dbTable : string) :
  (fun e => (e.1, sql.render dbTable e.2)) <$> statement_list
  = [("put", "IF EXISTS(SELECT 1 FROM " ++ dbTable ++ " WHERE Path = ?) UPDATE "
             ++ dbTable ++ " SET Value = ? WHERE Path = ?"
             ++ " ELSE INSERT INTO " ++ dbTable ++ " VALUES(?, ?)");
     ("get", "SELECT Value FROM " ++ dbTable ++ " WHERE Path = ?");
     ("delete", "DELETE FROM " ++ dbTable ++ " WHERE Path = ?");
     ("list", "SELECT Path FROM " ++ dbTable ++ " WHERE Path LIKE ?")].
Proof.
  simpl. rewrite !string_app_assoc. reflexivity.
Qed.

(** *** The operations, run alone on a constructed backend *)

Lemma run_Put (m : MSSQLBackend) (env : Env) (entry : Entry) (w : World) (n : nat) :
  constructed m -> available w = S n ->
  run env (Put m entry) w
  = let '(err, tbl) :=
      sql.Stmt_Exec (fault env (put_call (Key entry) (Value entry)))
        (sql.IfExistsElse (sql.PathEq 0) (sql.Update 1 (sql.PathEq 2)) (sql.Insert 3 4))
        [sql.ArgString (Key entry); sql.ArgBytes (Value entry);
         sql.ArgString (Key entry); sql.ArgString (Key entry);
         sql.ArgBytes (Value entry)] (table w) in
    Returned err {| table := tbl; available := S n |}.
Proof.
  intros Hm Hav. destruct (constructed_lookup m Hm) as (Hput & _).
  unfold Put, prepared. rewrite Hput. simpl. rewrite Hav. simpl.
  unfold put_call.
  destruct (sql.Stmt_Exec _ _ _ _) as [[e|] tbl]; reflexivity.
Qed.

Lemma run_Delete (m : MSSQLBackend) (env : Env) (key : string) (w : World) (n : nat) :
  constructed m -> available w = S n ->
  run env (Delete m key) w
  = let '(err, tbl) :=
      sql.Stmt_Exec (fault env (delete_call key))
        (sql.Delete (sql.PathEq 0)) [sql.ArgString key] (table w) in
    Returned err {| table := tbl; available := S n |}.
Proof.
  intros Hm Hav. destruct (constructed_lookup m Hm) as (_ & _ & Hdel & _).
  unfold Delete, prepared. rewrite Hdel. simpl. rewrite Hav. simpl.
  unfold delete_call.
  destruct (sql.Stmt_Exec _ _ _ _) as [[e|] tbl]; reflexivity.
Qed.

Lemma run_Get (m : MSSQLBackend) (env : Env) (key : string) (w : World) (n : nat) :
  constructed m -> available w = S n ->
  run env (Get m key) w
  = let '(r, tbl) :=
      sql.Stmt_QueryRow_Scan (fault env (get_call key)) (row_order env)
        (scan_fault env) (sql.SelectValue (sql.PathEq 0)) [sql.ArgString key]
        (table w) in
    Returned
      match r with
      | inl err => if bool_decide (err = ErrNoRows) then (None, None)
                   else (None, Some err)
      | inr result => (Some {| Key := key; Value := sql.to_bytes result |}, None)
      end
      {| table := tbl; available := S n |}.
Proof.
  intros Hm Hav. destruct (constructed_lookup m Hm) as (_ & Hget & _).
  unfold Get, prepared. rewrite Hget. simpl. rewrite Hav. simpl.
  unfold get_call.
  destruct (sql.Stmt_QueryRow_Scan _ _ _ _ _ _) as [[e|c] tbl]; simpl;
    [destruct (bool_decide _)|]; reflexivity.
Qed.

Lemma world_eta (w : World) (n : nat) :
  available w = n -> {| table := table w; available := n |} = w.
Proof. intros <-. now destruct w. Qed.

(** The "get" query on a table, when the driver call does not fail. *)
Lemma QueryRow_Scan_get (env : Env) (key : string) (tbl : gmap string bytes) :
  fair_rows env ->
  sql.Stmt_QueryRow_Scan None (row_order env) (scan_fault env)
    (sql.SelectValue (sql.PathEq 0)) [sql.ArgString key] tbl
  = (match tbl !! key with
     | None => inl ErrNoRows
     | Some v =>
         match scan_fault env 0 with
         | Some msg => inl (DriverError msg)
         | None => inr (sql.CellBytes v)
         end
     end, tbl).
Proof.
  intros Hfair. unfold sql.Stmt_QueryRow_Scan, sql.Stmt_Query.
  change (sql.exec _ _ tbl) with (inr tbl : error + gmap string bytes).
  rewrite result_set_get. destruct (tbl !! key) as [v|].
  - pose proof (Hfair [sql.CellBytes v]) as Hp.
    apply Permutation_singleton_r in Hp. rewrite Hp. simpl.
    destruct (scan_fault env 0); reflexivity.
  - pose proof (Hfair []) as Hp. apply Permutation_nil_r in Hp.
    rewrite Hp. reflexivity.
Qed.

(** C3. On a key with no stored entry, [Get] returns no entry and no
    error.  A driver call that fails, and a row scan that fails, come
    back as an error; so "no entry, no error" is returned only when the
    key is absent and nothing failed. *)
Theorem Get_absent_is_no_error (m : MSSQLBackend) (env : Env) (key : string)
    (w : World) (n : nat) :
  constructed m -> available w = S n -> fair_rows env ->
  (table w !! key = None -> fault env (get_call key) = None ->
   run env (Get m key) w = Returned (None, None) w) /\
  (forall msg, fault env (get_call key) = Some msg ->
   run env (Get m key) w = Returned (None, Some (DriverError msg)) w) /\
  (forall v msg, table w !! key = Some v -> fault env (get_call key) = None ->
   scan_fault env 0 = Some msg ->
   run env (Get m key) w = Returned (None, Some (DriverError msg)) w) /\
  (forall w', run env (Get m key) w = Returned (None, None) w' ->
   table w !! key = None /\ fault env (get_call key) = None).
Proof.
  intros Hm Hav Hfair. rewrite (run_Get m env key w n Hm Hav).
  destruct (fault env (get_call key)) as [msg|] eqn:Ef.
  - unfold sql.Stmt_QueryRow_Scan, sql.Stmt_Query. simpl.
    rewrite (world_eta w (S n) Hav).
    split; [discriminate|]. split; [|split].
    + intros msg' [= <-]. reflexivity.
    + discriminate.
    + discriminate.
  - rewrite (QueryRow_Scan_get env key (table w) Hfair).
    rewrite (world_eta w (S n) Hav).
    destruct (table w !! key) as [v|] eqn:Ek.
    + split; [discriminate|]. split; [discriminate|]. split.
      * intros v' msg [= <-] _ Hs. now rewrite Hs.
      * intros w' H. destruct (scan_fault env 0); simpl in H; discriminate.
    + split; [reflexivity|]. split; [discriminate|]. split; [discriminate|].
      auto.
Qed.

(** C4. [Put] is an upsert: when the driver call does not fail, it
    leaves the table with the value stored under the key, whether or not
    the key had a row (a new row needs a key that fits the Path column).
    And after a [Put] that returned no error, [Get] of the same key, when
    nothing fails in it, returns an entry with that key and exactly that
    value. *)
Theorem Put_then_Get (m : MSSQLBackend) (env1 env2 : Env) (k : string) (v : bytes)
    (w : World) (n : nat) :
  constructed m -> available w = S n -> fair_rows env2 ->
  (fault env1 (put_call k v) = None ->
   is_Some (table w !! k) \/ (String.length k <= sql.path_limit)%nat ->
   run env1 (Put m {| Key := k; Value := v |}) w
   = Returned None {| table := <[k := v]> (table w); available := S n |}) /\
  (forall w1,
     run env1 (Put m {| Key := k; Value := v |}) w = Returned None w1 ->
     fault env2 (get_call k) = None -> scan_fault env2 0 = None ->
     run env2 (Get m k) w1
     = Returned (Some {| Key := k; Value := v |}, None) w1).
Proof.
  intros Hm Hav Hfair.
  rewrite (run_Put m env1 {| Key := k; Value := v |} w n Hm Hav).
  cbn [Key Value]. unfold sql.Stmt_Exec. rewrite exec_put. split.
  - intros -> Hk. destruct Hk as [Hk|Hk].
    + now rewrite bool_decide_eq_true_2.
    + destruct (bool_decide (is_Some _)); [reflexivity|].
      rewrite bool_decide_eq_false_2 by lia. reflexivity.
  - intros w1 Hput Hg Hs.
    assert (w1 = {| table := <[k := v]> (table w); available := S n |}) as ->.
    { destruct (fault env1 (put_call k v)); [discriminate|].
      destruct (bool_decide (is_Some _)); [now injection Hput as <-|].
      destruct (bool_decide _); [discriminate|now injection Hput as <-]. }
    rewrite (run_Get m env2 k {| table := <[k := v]> (table w); available := S n |}
               n Hm eq_refl). simpl.
    rewrite Hg, (QueryRow_Scan_get env2 k _ Hfair).
    rewrite lookup_insert_eq, Hs. reflexivity.
Qed.

(** C5. [Delete] returns no error when the driver call does not fail,
    whether or not the key has a row; the row is gone afterwards, so
    [Get] then returns no entry and no error, and deleting again changes
    nothing and returns no error. *)
Theorem Delete_then_Get (m : MSSQLBackend) (env1 env2 : Env) (k : string)
    (w : World) (n : nat) :
  constructed m -> available w = S n -> fair_rows env2 ->
  fault env1 (delete_call k) = None -> fault env2 (get_call k) = None ->
  run env1 (Delete m k) w
  = Returned None {| table := delete k (table w); available := S n |} /\
  run env2 (Get m k) {| table := delete k (table w); available := S n |}
  = Returned (None, None) {| table := delete k (table w); available := S n |} /\
  run env1 (Delete m k) {| table := delete k (table w); available := S n |}
  = Returned None {| table := delete k (table w); available := S n |}.
Proof.
  intros Hm Hav Hfair Hd Hg.
  rewrite (run_Delete m env1 k w n Hm Hav).
  rewrite (run_Delete m env1 k {| table := delete k (table w); available := S n |}
             n Hm eq_refl).
  rewrite (run_Get m env2 k {| table := delete k (table w); available := S n |}
             n Hm eq_refl). simpl.
  unfold sql.Stmt_Exec. rewrite Hd, Hg, !exec_delete.
  rewrite (QueryRow_Scan_get env2 k _ Hfair), lookup_delete_eq.
  rewrite delete_delete_eq. auto.
Qed.

(** *** List *)

Lemma scanned_calm (scan_fault : nat -> option string) (cells : list sql.Cell) :
  (forall n, scan_fault n = None) ->
  sql.scanned scan_fault cells = inr <$> cells.
Proof.
  intros H. unfold sql.scanned.
  rewrite (imap_ext _ (fun _ cell => inr cell)).
  - clear H. induction cells as [|c cells IH]; [reflexivity|].
    simpl. f_equal. exact IH.
  - intros n c _. now rewrite H.
Qed.

Lemma List_loop_calm (prefix : string) (cells : list sql.Cell) (keys : list string) :
  List_loop prefix (inr <$> cells) keys
  = inr (foldl (List_step prefix) keys (sql.to_string <$> cells)).
Proof.
  revert keys. induction cells as [|c cells IH]; intros keys; [reflexivity|].
  cbn [fmap list_fmap List_loop foldl]. unfold List_step at 2.
  destruct (bool_decide (Index _ _ = -1)) eqn:E; [apply IH|].
  rewrite bool_decide_eq_true_2; [apply IH|].
  now apply bool_decide_eq_false in E.
Qed.

(** One turn of the loop, by the remainder of the key. *)
Lemma List_step_spec (prefix : string) (keys : list string) (key : string) :
  List_step prefix keys key
  = let r := TrimPrefix key prefix in
    match String.index 0 "/" r with
    | None => (keys ++ [collapse r])%list
    | Some _ => strutil.AppendIfMissing keys (collapse r)
    end.
Proof.
  unfold List_step. cbv zeta.
  destruct (String.index 0 "/" (TrimPrefix key prefix)) as [i|] eqn:E.
  - rewrite bool_decide_eq_false_2 by (rewrite Index_None; congruence).
    rewrite slice_collapse by congruence. reflexivity.
  - rewrite bool_decide_eq_true_2 by (now apply Index_None).
    now rewrite collapse_no_slash.
Qed.

Lemma elem_of_AppendIfMissing (keys : list string) (i x : string) :
  x ∈ strutil.AppendIfMissing keys i <-> x ∈ keys \/ x = i.
Proof.
  unfold strutil.AppendIfMissing. case_bool_decide as H.
  - split; [auto|]. intros [?| ->]; auto.
  - rewrite elem_of_app, list_elem_of_singleton. tauto.
Qed.

Lemma NoDup_AppendIfMissing (keys : list string) (i : string) :
  NoDup keys -> NoDup (strutil.AppendIfMissing keys i).
Proof.
  intros H. unfold strutil.AppendIfMissing. case_bool_decide as Hi; [exact H|].
  apply NoDup_app. repeat split; [exact H| |apply NoDup_singleton].
  intros x Hx ->%list_elem_of_singleton. contradiction.
Qed.

Lemma elem_of_List_steps (prefix : string) (ks keys : list string) (x : string) :
  x ∈ foldl (List_step prefix) keys ks
  <-> x ∈ keys \/ exists k, k ∈ ks /\ x = collapse (TrimPrefix k prefix).
Proof.
  revert keys. induction ks as [|k ks IH]; intros keys; simpl.
  - split; [auto|]. intros [H|(k & Hk & _)]; [exact H|]. inversion Hk.
  - rewrite IH, List_step_spec. cbv zeta.
    assert (x ∈ match String.index 0 "/" (TrimPrefix k prefix) with
                | Some _ => strutil.AppendIfMissing keys (collapse (TrimPrefix k prefix))
                | None => (keys ++ [collapse (TrimPrefix k prefix)])%list
                end
            <-> x ∈ keys \/ x = collapse (TrimPrefix k prefix)) as ->.
    { destruct (String.index _ _ _).
      - apply elem_of_AppendIfMissing.
      - rewrite elem_of_app, list_elem_of_singleton. tauto. }
    split.
    + intros [[H| ->]|(k' & Hk' & ->)]; [auto| |].
      * right. exists k. split; [left|reflexivity].
      * right. exists k'. split; [now right|reflexivity].
    + intros [H|(k' & Hk' & ->)]; [auto|].
      apply elem_of_cons in Hk' as [->|Hk']; [auto|].
      right. eauto.
Qed.

Lemma NoDup_List_steps (prefix : string) (ks keys : list string) :
  NoDup keys ->
  NoDup ((fun k => TrimPrefix k prefix) <$> ks) ->
  (forall k, k ∈ ks -> String.index 0 "/" (TrimPrefix k prefix) = None ->
             TrimPrefix k prefix ∉ keys) ->
  NoDup (foldl (List_step prefix) keys ks).
Proof.
  revert keys. induction ks as [|k ks IH]; intros keys Hkeys Hks Hfresh; [exact Hkeys|].
  simpl. rewrite fmap_cons in Hks. apply NoDup_cons in Hks as [Hk Hks].
  rewrite List_step_spec. cbv zeta.
  destruct (String.index 0 "/" (TrimPrefix k prefix)) as [i|] eqn:E.
  - apply IH; [now apply NoDup_AppendIfMissing|exact Hks|].
    intros k' Hk' E' Hin. apply elem_of_AppendIfMissing in Hin as [Hin|Heq].
    + apply (Hfresh k'); [now right|exact E'|exact Hin].
    + rewrite Heq, index_collapse, E in E'. discriminate.
  - rewrite collapse_no_slash by exact E.
    apply IH; [|exact Hks|].
    + apply NoDup_app. repeat split; [exact Hkeys| |apply NoDup_singleton].
      intros x Hx ->%list_elem_of_singleton.
      apply (Hfresh k); [left|exact E|exact Hx].
    + intros k' Hk' E' Hin. apply elem_of_app in Hin as [Hin|Hin].
      * apply (Hfresh k'); [now right|exact E'|exact Hin].
      * apply list_elem_of_singleton in Hin. apply Hk. rewrite <- Hin.
        apply list_elem_of_fmap. eauto.
Qed.

Lemma run_List (m : MSSQLBackend) (env : Env) (prefix : string) (w : World) (n : nat) :
  constructed m -> available w = S n ->
  run env (List m prefix) w
  = let '(r, tbl) :=
      sql.Stmt_Query (fault env (list_call prefix)) (row_order env)
        (scan_fault env) (sql.SelectPath (sql.PathLike 0))
        [sql.ArgString (prefix ++ "%")] (table w) in
    Returned
      match r with
      | inl err => ([], Some err)
      | inr rows =>
          match List_loop prefix rows [] with
          | inl err => ([], Some err)
          | inr keys => (sort_Strings keys, None)
          end
      end
      {| table := tbl; available := S n |}.
Proof.
  intros Hm Hav. destruct (constructed_lookup m Hm) as (_ & _ & _ & Hlist).
  unfold List, prepared. cbv zeta. rewrite Hlist. simpl. rewrite Hav. simpl.
  unfold list_call.
  destruct (sql.Stmt_Query _ _ _ _ _ _) as [[e|rows] tbl]; simpl; [reflexivity|].
  destruct (List_loop prefix rows []); reflexivity.
Qed.

(** The keys the "list" query selects for a literal prefix. *)
Lemma selected_keys (prefix : string) (tbl : gmap string bytes) (k : string) :
  sql.literal prefix = true ->
  k ∈ (map_to_list (sql.select (sql.like (prefix ++ "%")) tbl)).*1
  <-> k ∈ (map_to_list tbl).*1 /\ String.prefix prefix k = true.
Proof.
  intros Hl. rewrite !list_elem_of_fmap. split.
  - intros ([k' v] & -> & Hin). apply elem_of_map_to_list in Hin.
    unfold sql.select in Hin. apply map_lookup_filter_Some in Hin as [Hk Hp].
    simpl in *. rewrite like_literal in Hp by exact Hl. split; [|exact Hp].
    exists (k', v). split; [reflexivity|]. now apply elem_of_map_to_list.
  - intros [([k' v] & -> & Hin) Hp]. apply elem_of_map_to_list in Hin.
    exists (k', v). split; [reflexivity|]. apply elem_of_map_to_list.
    unfold sql.select. apply map_lookup_filter_Some. split; [exact Hin|].
    simpl in *. now rewrite like_literal.
Qed.

Lemma sort_Strings_Permutation (l1 l2 : list string) :
  l1 ≡ₚ l2 -> sort_Strings l1 = sort_Strings l2.
Proof.
  intros Hp. unfold sort_Strings.
  apply (Sorted_unique String.le); [apply Sorted_merge_sort, _..|].
  now rewrite !merge_sort_Permutation.
Qed.

(** X14. The listing under a prefix that LIKE reads literally.  When nothing
    fails, [List] returns the listing the specification describes: the
    collapsed remainders of the keys that start with the prefix, without
    duplicates, in ascending order. *)
Theorem List_literal_prefix (m : MSSQLBackend) (env : Env) (prefix : string)
    (w : World) (n : nat) :
  constructed m -> available w = S n -> fair_rows env ->
  fault env (list_call prefix) = None ->
  (forall i, scan_fault env i = None) ->
  sql.literal prefix = true ->
  run env (List m prefix) w
  = Returned (listing prefix (map_to_list (table w)).*1, None) w.
Proof.
  intros Hm Hav Hfair Hf Hscan Hlit.
  rewrite (run_List m env prefix w n Hm Hav), Hf.
  unfold sql.Stmt_Query.
  change (sql.exec _ _ (table w)) with (inr (table w) : error + gmap string bytes).
  rewrite (scanned_calm _ _ Hscan), List_loop_calm, (world_eta w (S n) Hav).
  do 2 f_equal. unfold listing. apply sort_Strings_Permutation.
  set (sel := sql.select (sql.like (prefix ++ "%")) (table w)).
  set (ks := sql.to_string <$> row_order env _).
  assert (ks ≡ₚ (map_to_list sel).*1) as Hks.
  { unfold ks. rewrite (Hfair _). simpl. rewrite <- list_fmap_compose.
    reflexivity. }
  assert (forall k, k ∈ ks ->
            k ∈ (map_to_list (table w)).*1 /\ String.prefix prefix k = true) as Hmem.
  { intros k Hk. rewrite Hks in Hk. now apply selected_keys in Hk. }
  apply NoDup_Permutation.
  - apply NoDup_List_steps; [constructor| |intros ? ? ?; apply not_elem_of_nil].
    apply NoDup_fmap_2_strong.
    + intros k1 k2 H1 H2 Heq.
      apply Hmem in H1 as [_ H1]. apply Hmem in H2 as [_ H2].
      rewrite !TrimPrefix_prefix in Heq by assumption.
      rewrite (prefix_split prefix k1 H1), (prefix_split prefix k2 H2).
      now rewrite Heq.
    + rewrite Hks. apply NoDup_fst_map_to_list.
  - apply NoDup_remove_dups.
  - intros x. rewrite elem_of_List_steps, elem_of_remove_dups.
    rewrite list_elem_of_fmap. setoid_rewrite list_elem_of_fmap.
    setoid_rewrite list_elem_of_filter. split.
    + intros [H|(k & Hk & ->)]; [now apply not_elem_of_nil in H|].
      destruct (Hmem k Hk) as [Hin Hp].
      exists (drop (String.length prefix) k). split.
      * now rewrite TrimPrefix_prefix.
      * exists k. auto.
    + intros (r & -> & k & -> & Hp & Hin). right. exists k. split.
      * rewrite Hks. apply selected_keys; auto.
      * now rewrite TrimPrefix_prefix.
Qed.

(** *** Concurrent callers *)

Lemma bracketed_bind_Ret {A B : Type} (g : A -> B) (p : Prog A) (n : nat) :
  bracketed n p -> bracketed n (bind p (fun a => Ret (g a))).
Proof.
  revert n. induction p as [a|msg|c k IH]; intros n; simpl; try tauto.
  intros [Hc Hk]. split; [exact Hc|]. intros r. apply IH, Hk.
Qed.

(** A body that touches no permit, run under [defer Release] by a
    thread that holds one permit. *)
Lemma bracketed_defer_Release {A : Type} (body : Prog A) :
  permit_free body -> bracketed 1 (defer (call Release) body).
Proof.
  induction body as [a|msg|c k IH]; simpl.
  - intros _. split; [lia|]. intros _. reflexivity.
  - intros _. split; [lia|]. intros _. reflexivity.
  - intros (Ha & Hr & Hk). split.
    + destruct c; try contradiction; intros _; lia.
    + intros r. destruct c; try contradiction; apply IH, Hk.
Qed.

Lemma permit_free_prepared {A : Type} (m : MSSQLBackend) (name : string)
    (k : sql.Query -> Prog A) :
  (forall st, permit_free (k st)) -> permit_free (prepared m name k).
Proof. intros H. unfold prepared. destruct (statements m !! name); simpl; auto. Qed.

(** Every operation is well bracketed from its start. *)
Lemma bracketed_invoke (m : MSSQLBackend) (op : Operation) :
  bracketed 0 (invoke m op).
Proof.
  destruct op; unfold invoke; apply bracketed_bind_Ret;
    unfold Put, Get, Delete, List; simpl; (split; [exact I|]); intros _;
    apply bracketed_defer_Release; cbv zeta; apply permit_free_prepared;
    intros st; simpl; (split; [discriminate|]); (split; [discriminate|]);
    intros r.
  - now destruct r.
  - destruct r as [e|c]; [destruct (bool_decide _)|]; exact I.
  - now destruct r.
  - destruct r as [e|rows]; [exact I|]. now destruct (List_loop _ _ _).
Qed.

Lemma held_insert (ts : list Thread) (i : nat) (t t' : Thread) :
  ts !! i = Some t ->
  (held (<[i := t']> ts) + permits t = held ts + permits t')%nat.
Proof.
  unfold held. revert i. induction ts as [|x ts IH]; intros [|i] H;
    simpl in *; try discriminate.
  - injection H as ->. lia.
  - specialize (IH i H). unfold fmap in *. lia.
Qed.

Lemma holders_le_held (ts : list Thread) :
  (length (filter (fun t => (0 < permits t)%nat) ts) <= held ts)%nat.
Proof.
  unfold held. induction ts as [|t ts IH]; simpl; [lia|].
  rewrite filter_cons. unfold fmap in *. destruct (decide _); simpl; lia.
Qed.

Lemma handle_available (env : Env) (c : Call) (w w' : World) (r : Reply c) :
  handle env c w = Some (r, w') ->
  match c with
  | Acquire => available w = S (available w')
  | Release => available w' = S (available w)
  | _ => available w' = available w
  end.
Proof.
  destruct c; simpl.
  - destruct (available w); [discriminate|]. now intros [= <- <-].
  - now intros [= <- <-].
  - destruct (sql.Stmt_Exec _ _ _ _). now intros [= <- <-].
  - destruct (sql.Stmt_QueryRow_Scan _ _ _ _ _ _). now intros [= <- <-].
  - destruct (sql.Stmt_Query _ _ _ _ _ _). now intros [= <- <-].
  - now intros [= <- <-].
  - now intros [= <- <-].
  - now intros [= <- <-].
  - destruct (fault env _); now intros [= <- <-].
  - destruct (fault env _); now intros [= <- <-].
  - now intros [= <- <-].
Qed.

Lemma consistent_start (m : MSSQLBackend) (ops : list Operation)
    (tbl : gmap string bytes) :
  consistent (capacity (permitPool m)) (start m ops tbl).
Proof.
  split; simpl.
  - unfold held. rewrite <- list_fmap_compose.
    induction ops as [|op ops IH]; simpl in *; [reflexivity|exact IH].
  - intros t Ht. apply list_elem_of_fmap in Ht as (op & -> & _).
    apply bracketed_invoke.
Qed.

Lemma consistent_step (cap : nat) (cfg cfg' : Config) :
  consistent cap cfg -> step cfg cfg' -> consistent cap cfg'.
Proof.
  intros [Hsum Hbr] Hstep.
  destruct Hstep as [env ts w w' i c k n r Hi Hh]. simpl in *.
  assert (bracketed n (Do c k)) as Hb.
  { apply (Hbr {| code := Do c k; permits := n |}).
    eapply list_elem_of_lookup_2, Hi. }
  simpl in Hb. destruct Hb as [Hc Hk].
  pose proof (held_insert ts i _ {| code := k r; permits := permits_after c n |} Hi)
    as Hheld. simpl in Hheld.
  pose proof (handle_available env c w w' r Hh) as Hav.
  split; simpl.
  - destruct c; simpl in *; lia.
  - intros t Ht. apply list_elem_of_lookup in Ht as [j Hj].
    apply list_lookup_insert_Some in Hj as [(_ & <- & _)|[_ Hj]].
    + apply Hk.
    + eapply Hbr, list_elem_of_lookup_2, Hj.
Qed.

Lemma consistent_reachable (m : MSSQLBackend) (ops : list Operation)
    (tbl : gmap string bytes) (cfg : Config) :
  rtc step (start m ops tbl) cfg ->
  consistent (capacity (permitPool m)) cfg.
Proof.
  intros H. revert cfg H. apply rtc_ind_r.
  - apply consistent_start.
  - intros cfg cfg' _ Hstep IH. now apply (consistent_step _ cfg).
Qed.

(** C9.  Callers run concurrently against one backend, in any
    interleaving of their calls.  In every configuration they can reach,
    the threads that hold a permit are at most as many as the pool has
    permits; a thread that is at a statement of the store holds a permit;
    and a thread whose operation has ended, by a return (with or without
    an error) or by a panic, holds none. *)
Theorem permits_bound_concurrency (m : MSSQLBackend) (ops : list Operation)
    (tbl : gmap string bytes) (cfg : Config) :
  rtc step (start m ops tbl) cfg ->
  (holders cfg <= capacity (permitPool m))%nat /\
  (forall t, t ∈ threads cfg -> at_store t -> (0 < permits t)%nat) /\
  (forall t, t ∈ threads cfg -> finished t -> permits t = 0%nat).
Proof.
  intros H. destruct (consistent_reachable m ops tbl cfg H) as [Hsum Hbr].
  split; [|split].
  - pose proof (holders_le_held (threads cfg)). unfold holders. lia.
  - intros t Ht Hs. specialize (Hbr t Ht). unfold at_store in Hs.
    destruct (code t) as [a|msg|c k]; try contradiction.
    simpl in Hbr. destruct Hbr as [Hc _].
    destruct c; try contradiction; now apply Hc.
  - intros t Ht Hf. specialize (Hbr t Ht). unfold finished in Hf.
    destruct (code t) as [a|msg|c k]; try contradiction; exact Hbr.
Qed.

(** C8.  Whichever driver call of the constructor fails (opening the
    database, a bootstrap statement, the schema probe, the preparation of
    a statement), it is the last call the constructor makes, and the
    constructor returns an error whose root cause is that failure, and no
    backend. *)
Theorem NewMSSQLBackend_fails_on_first_failure (d : Z) (env : Env)
    (conf : gmap string string) (w : World) (i : nat) (c : Call) :
  calls env (NewMSSQLBackend d conf) w !! i = Some c ->
  fails env c ->
  S i = length (calls env (NewMSSQLBackend d conf) w) /\
  exists (e : error) (msg : string),
    run env (NewMSSQLBackend d conf) w = Returned (inl e) w /\
    fault env c = Some msg /\ root_cause e = DriverError msg.
Proof.
  revert i c. change (fails_fast env (NewMSSQLBackend d conf) w).
  unfold NewMSSQLBackend.
  destruct (match conf !! "max_parallel" with
            | Some s => strconv.Atoi s | None => inr d end) as [err|maxParInt].
  - apply fails_fast_Ret.
  - cbv zeta. simpl bind.
    apply (fails_fast_check env (Open _ _) (fun r => r)).
    + simpl. intros r w' [= <- <-]. split; [reflexivity|].
      match goal with |- context [fault env ?c] =>
        pose proof (driver_reply env c) as H end.
      destruct (driver_error _); [exact H|]. simpl. rewrite H. now intros [? ?].
    + eapply fails_fast_skip; [reflexivity|simpl; tauto|].
      apply fails_fast_DBExec, fails_fast_ensure_schema, fails_fast_create_table.
Qed.

End mssql_facts.

(** ** The backend at concrete inputs *)

Module mssql_example_facts.
Import physical mssql mssql_facts mssql_examples.

Lemma backend_constructed : constructed backend.
Proof.
  exists 128, calm, ∅, (store []), (store []). split.
  - intros entries. reflexivity.
  - vm_compute. reflexivity.
Qed.

Lemma narrow_backend_constructed : constructed narrow_backend.
Proof.
  exists 128, calm, {[ "max_parallel" := "1" ]}, (store []), (store []). split.
  - intros entries. reflexivity.
  - vm_compute. reflexivity.
Qed.

Lemma calm_fair_rows : fair_rows calm.
Proof. intros rows. reflexivity. Qed.

Lemma NewMSSQLBackend_fails_on_first_failure_witness :
  calls get_unprepared (NewMSSQLBackend 128 ∅) (store []) !! 6%nat
    = Some (Prepare "Vault.dbo.Vault" (sql.SelectValue (sql.PathEq 0))) /\
  fails get_unprepared (Prepare "Vault.dbo.Vault" (sql.SelectValue (sql.PathEq 0))) /\
  7%nat = length (calls get_unprepared (NewMSSQLBackend 128 ∅) (store [])) /\
  exists (e : error) (msg : string),
    run get_unprepared (NewMSSQLBackend 128 ∅) (store []) = Returned (inl e) (store []) /\
    fault get_unprepared (Prepare "Vault.dbo.Vault" (sql.SelectValue (sql.PathEq 0)))
      = Some msg /\
    root_cause e = DriverError msg.
Proof.
  assert (calls get_unprepared (NewMSSQLBackend 128 ∅) (store []) !! 6%nat
          = Some (Prepare "Vault.dbo.Vault" (sql.SelectValue (sql.PathEq 0)))) as H1
    by (vm_compute; reflexivity).
  assert (fails get_unprepared
            (Prepare "Vault.dbo.Vault" (sql.SelectValue (sql.PathEq 0)))) as H2
    by (eexists; reflexivity).
  split; [exact H1|]. split; [exact H2|].
  exact (NewMSSQLBackend_fails_on_first_failure 128 get_unprepared ∅ (store [])
           6 _ H1 H2).
Defined.

(** The same run, computed: the error the caller gets. *)
Example NewMSSQLBackend_fails_run :
  returned (run get_unprepared (NewMSSQLBackend 128 ∅) (store []))
  = Some (inl (Wrapf ("failed to prepare " ++ quoted "get" ++ ": {{err}}")
                 (DriverError "connection reset"))).
Proof. vm_compute. reflexivity. Qed.

Lemma Get_absent_is_no_error_witness :
  constructed backend /\ available (store []) = 128%nat /\ fair_rows calm /\
  table (store []) !! "a/b" = None /\ fault calm (get_call "a/b") = None /\
  run calm (Get backend "a/b") (store []) = Returned (None, None) (store []).
Proof.
  split; [exact backend_constructed|]. split; [reflexivity|].
  split; [exact calm_fair_rows|]. split; [reflexivity|]. split; [reflexivity|].
  apply (Get_absent_is_no_error backend calm "a/b" (store []) 127
           backend_constructed eq_refl calm_fair_rows); reflexivity.
Defined.

Lemma Put_then_Get_witness :
  constructed backend /\ available tree = 128%nat /\ fair_rows calm /\
  run calm (Put backend {| Key := "a/b"; Value := [Byte.x00] |}) tree
  = Returned None {| table := <["a/b" := [Byte.x00]]> (table tree); available := 128 |} /\
  run calm (Get backend "a/b")
    {| table := <["a/b" := [Byte.x00]]> (table tree); available := 128 |}
  = Returned (Some {| Key := "a/b"; Value := [Byte.x00] |}, None)
      {| table := <["a/b" := [Byte.x00]]> (table tree); available := 128 |}.
Proof.
  split; [exact backend_constructed|]. split; [reflexivity|].
  split; [exact calm_fair_rows|].
  destruct (Put_then_Get backend calm calm "a/b" [Byte.x00] tree 127
              backend_constructed eq_refl calm_fair_rows) as [Hput Hget].
  assert (run calm (Put backend {| Key := "a/b"; Value := [Byte.x00] |}) tree
          = Returned None
              {| table := <["a/b" := [Byte.x00]]> (table tree); available := 128 |})
    as H by (apply Hput; [reflexivity|right; vm_compute; lia]).
  split; [exact H|]. apply Hget; [exact H|reflexivity|reflexivity].
Defined.

Lemma Delete_then_Get_witness :
  constructed backend /\ available tree = 128%nat /\ fair_rows calm /\
  fault calm (delete_call "a/b") = None /\ fault calm (get_call "a/b") = None /\
  run calm (Delete backend "a/b") tree
  = Returned None {| table := delete "a/b" (table tree); available := 128 |} /\
  run calm (Get backend "a/b")
    {| table := delete "a/b" (table tree); available := 128 |}
  = Returned (None, None)
      {| table := delete "a/b" (table tree); available := 128 |} /\
  run calm (Delete backend "a/b")
    {| table := delete "a/b" (table tree); available := 128 |}
  = Returned None {| table := delete "a/b" (table tree); available := 128 |}.
Proof.
  split; [exact backend_constructed|]. split; [reflexivity|].
  split; [exact calm_fair_rows|]. split; [reflexivity|]. split; [reflexivity|].
  exact (Delete_then_Get backend calm calm "a/b" tree 127
           backend_constructed eq_refl calm_fair_rows eq_refl eq_refl).
Defined.

(** C2, the specification's example: keys a/b, a/c, a/d/e listed under
    the prefix a/. *)
Example List_example :
  returned (run calm (List backend "a/") tree) = Some (["b"; "c"; "d/"], None).
Proof. vm_compute. reflexivity. Qed.

Lemma List_literal_prefix_witness :
  constructed backend /\ available tree = 128%nat /\ fair_rows calm /\
  fault calm (list_call "a/") = None /\ (forall i, scan_fault calm i = None) /\
  sql.literal "a/" = true /\
  run calm (List backend "a/") tree
  = Returned (listing "a/" (map_to_list (table tree)).*1, None) tree.
Proof.
  split; [exact backend_constructed|]. split; [reflexivity|].
  split; [exact calm_fair_rows|]. split; [reflexivity|].
  split; [reflexivity|]. split; [reflexivity|].
  exact (List_literal_prefix backend calm "a/" tree 127 backend_constructed
           eq_refl calm_fair_rows eq_refl (fun _ => eq_refl) eq_refl).
Defined.

(** C2 at a prefix with a LIKE wildcard: the store holds the one key
    "ab", the prefix is "a_".  The key does not start with the prefix, so
    the listing of the specification is empty; [List] returns the key,
    whole. *)
Theorem List_wildcard_prefix :
  String.prefix "a_" "ab" = false /\
  listing "a_" ["ab"] = [] /\
  run calm (List backend "a_") (store [("ab", value)])
  = Returned (["ab"], None) (store [("ab", value)]).
Proof. split; [reflexivity|]. split; vm_compute; reflexivity. Qed.

(** With more keys: a key under another directory is listed, as a
    directory that the prefix does not have. *)
Example List_wildcard_prefix_directory :
  returned (run calm (List backend "a_/")
              (store [("a_/x", value); ("ab/secret", value)]))
  = Some (["ab/"; "x"], None).
Proof. vm_compute. reflexivity. Qed.

Lemma fire_step (env : Env) (i : nat) (cfg cfg' : Config) :
  fire env i cfg = Some cfg' -> step cfg cfg'.
Proof.
  unfold fire. destruct cfg as [ts w]. simpl.
  destruct (ts !! i) as [[[a|msg|c k] n]|] eqn:Hi; try discriminate.
  destruct (handle env c w) as [[r w']|] eqn:Hh; [|discriminate].
  intros [= <-]. now apply (step_call env ts w w' i c k n r).
Qed.

Lemma permits_bound_concurrency_witness :
  rtc step (start narrow_backend
              [OpPut {| Key := "a/b"; Value := value |}; OpGet "a/b"] ∅)
    first_holds /\
  (holders first_holds <= capacity (permitPool narrow_backend))%nat /\
  (forall t, t ∈ threads first_holds -> at_store t -> (0 < permits t)%nat) /\
  (forall t, t ∈ threads first_holds -> finished t -> permits t = 0%nat).
Proof.
  assert (rtc step (start narrow_backend
                      [OpPut {| Key := "a/b"; Value := value |}; OpGet "a/b"] ∅)
            first_holds) as H.
  { apply rtc_once, (fire_step calm 0). reflexivity. }
  split; [exact H|].
  exact (permits_bound_concurrency narrow_backend _ ∅ first_holds H).
Defined.

(** With the only permit taken, the second caller cannot acquire: the
    pool admits one holder. *)
Example second_caller_waits :
  holders first_holds = 1%nat /\
  available (world first_holds) = 0%nat /\
  fire calm 1 first_holds = None.
Proof. repeat split; vm_compute; reflexivity. Qed.

(** The first caller runs to its end and gives the permit back; then
    the second caller gets it. *)
Example second_caller_proceeds :
  (holders <$> fire_all calm [0; 0; 1]%nat first_holds) = Some 1%nat /\
  (available ∘ world <$> fire_all calm [0; 0]%nat first_holds) = Some 1%nat.
Proof. split; vm_compute; reflexivity. Qed.

End mssql_example_facts.

(** ** mssql.go: the constructor, from configuration to backend *)

Module mssql_ctor_facts.
Import physical mssql gostrings gostrings_facts sql_facts mssql_facts.

(** *** The constructor's configuration *)

Lemma inject_lookup (ds : list (string * string)) (conf : gmap string string)
    (k : string) :
  NoDup ds.*1 ->
  foldl (fun conf '(k, v) =>
           match conf !! k with
           | Some _ => conf
           | None => <[k := v]> conf
           end) conf ds !! k
  = match conf !! k with
    | Some v => Some v
    | None => (list_to_map ds : gmap string string) !! k
    end.
Proof.
  revert conf. induction ds as [|[k0 v0] ds IH]; intros conf Hnd.
  - simpl. rewrite lookup_empty. now destruct (conf !! k).
  - rewrite fmap_cons in Hnd. apply NoDup_cons in Hnd as [Hk0 Hnd].
    cbn [foldl]. rewrite (IH _ Hnd). cbn [list_to_map foldr].
    destruct (decide (k = k0)) as [->|Hne].
    + rewrite lookup_insert_eq.
      destruct (conf !! k0) as [v|] eqn:E; rewrite ?E; [reflexivity|].
      now rewrite lookup_insert_eq.
    + rewrite (lookup_insert_ne _ k0 k) by congruence.
      destruct (conf !! k0) as [v|] eqn:E; [reflexivity|].
      now rewrite lookup_insert_ne by congruence.
Qed.

Lemma effective_lookup (conf : gmap string string) (k : string) :
  effective conf !! k
  = match upgrade_keys conf !! k with
    | Some v => Some v
    | None => (list_to_map defaults : gmap string string) !! k
    end.
Proof.
  unfold effective, inject_defaults. apply inject_lookup.
  apply (bool_decide_unpack _). vm_compute. exact I.
Qed.

Lemma upgrade_step_lookup (conf : gmap string string) (o n x : string) :
  o <> n ->
  match conf !! o with
  | Some confv => delete o (<[n := confv]> conf)
  | None => conf
  end !! x
  = if decide (x = o) then None
    else if decide (x = n)
         then match conf !! o with Some v => Some v | None => conf !! n end
         else conf !! x.
Proof.
  intros Hon. destruct (conf !! o) as [v|] eqn:Eo.
  - destruct (decide (x = o)) as [->|Hxo]; [apply lookup_delete_eq|].
    rewrite lookup_delete_ne by congruence.
    destruct (decide (x = n)) as [->|Hxn]; [apply lookup_insert_eq|].
    now rewrite lookup_insert_ne by congruence.
  - destruct (decide (x = o)) as [->|Hxo]; [exact Eo|].
    now destruct (decide (x = n)) as [->|Hxn].
Qed.

Lemma upgrade_fold_lookup (bc : list (string * string))
    (conf : gmap string string) (k : string) :
  NoDup bc.*1 -> NoDup bc.*2 -> Forall (fun x => x ∉ bc.*2) bc.*1 ->
  foldl (fun conf '(k, v) =>
           match conf !! k with
           | Some confv => delete k (<[v := confv]> conf)
           | None => conf
           end) conf bc !! k
  = if bool_decide (k ∈ bc.*1) then None
    else match (list_to_map (prod_swap <$> bc) : gmap string string) !! k with
         | Some old =>
             match conf !! old with
             | Some v => Some v
             | None => conf !! k
             end
         | None => conf !! k
         end.
Proof.
  revert conf. induction bc as [|[o n] bc IH]; intros conf Ho Hn Hd.
  - simpl. rewrite lookup_empty. reflexivity.
  - rewrite !fmap_cons in *. cbn [fst snd] in *.
    apply NoDup_cons in Ho as [Ho1 Ho]. apply NoDup_cons in Hn as [Hn1 Hn].
    apply Forall_cons in Hd as [Hon Hd].
    assert (o <> n) as Hne by (intros ->; apply Hon; left).
    assert (Forall (fun x => x ∉ bc.*2) bc.*1) as Hd'.
    { eapply Forall_impl; [exact Hd|]. intros x Hx Hin. apply Hx. now right. }
    assert (n ∉ bc.*1) as Hn_old.
    { intros Hin. rewrite Forall_forall in Hd. apply (Hd n Hin). left. }
    assert (o ∉ bc.*2) as Ho_new by (intros Hin; apply Hon; now right).
    assert (forall x, x ∉ bc.*2 ->
              (list_to_map (prod_swap <$> bc) : gmap string string) !! x = None) as HM.
    { intros x Hx. apply not_elem_of_list_to_map_1.
      rewrite <- list_fmap_compose.
      replace (fst ∘ prod_swap) with (@snd string string); [exact Hx|].
      reflexivity. }
    assert (forall x old,
              (list_to_map (prod_swap <$> bc) : gmap string string) !! x = Some old ->
              old ∈ bc.*1) as HM'.
    { intros x old Hx. apply elem_of_list_to_map_2 in Hx.
      apply list_elem_of_fmap in Hx as ([a b] & Heq & Hin).
      injection Heq as Hx' Ho'.
      apply list_elem_of_fmap. exists (a, b). auto. }
    cbn [foldl]. rewrite (IH _ Ho Hn Hd'). cbn [list_to_map foldr prod_swap fst snd].
    rewrite !upgrade_step_lookup by exact Hne.
    destruct (decide (k = o)) as [->|Hko].
    { rewrite (bool_decide_eq_false_2 (o ∈ bc.*1)) by exact Ho1.
      rewrite (bool_decide_eq_true_2 (o ∈ o :: bc.*1)) by left.
      now rewrite (HM o Ho_new). }
    destruct (bool_decide (k ∈ bc.*1)) eqn:Ek.
    { apply bool_decide_eq_true in Ek.
      now rewrite (bool_decide_eq_true_2 (k ∈ o :: bc.*1)) by (now right). }
    apply bool_decide_eq_false in Ek.
    rewrite (bool_decide_eq_false_2 (k ∈ o :: bc.*1))
      by (intros [?|?]%elem_of_cons; contradiction).
    destruct (decide (k = n)) as [->|Hkn].
    { rewrite (HM n Hn1), lookup_insert_eq. reflexivity. }
    rewrite lookup_insert_ne by congruence.
    destruct (list_to_map (prod_swap <$> bc) !! k) as [old|] eqn:EM; [|reflexivity].
    pose proof (HM' k old EM) as Hold.
    rewrite upgrade_step_lookup by exact Hne.
    destruct (decide (old = o)) as [->|]; [contradiction|].
    destruct (decide (old = n)) as [->|]; [contradiction|]. reflexivity.
Qed.

Lemma upgrade_lookup (conf : gmap string string) (k : string) :
  upgrade_keys conf !! k
  = if bool_decide (k ∈ backcomp.*1) then None
    else match (list_to_map (prod_swap <$> backcomp) : gmap string string) !! k with
         | Some old =>
             match conf !! old with
             | Some v => Some v
             | None => conf !! k
             end
         | None => conf !! k
         end.
Proof.
  unfold upgrade_keys. apply upgrade_fold_lookup;
    apply (bool_decide_unpack _); vm_compute; exact I.
Qed.

(** X4. The configuration the constructor works with.  A legacy name is
    never left in it, and a value given under a legacy name ends up under
    the new name, in place of a value given under the new name.  Any
    other value the caller gave stands, and a default fills in only where
    the caller gave nothing, under either name. *)
Theorem effective_config (conf : gmap string string) :
  (forall old new, (old, new) ∈ backcomp -> effective conf !! old = None) /\
  (forall old new v, (old, new) ∈ backcomp -> conf !! old = Some v ->
     effective conf !! new = Some v) /\
  (forall k v, conf !! k = Some v -> k ∉ backcomp.*1 ->
     (forall old, (old, k) ∈ backcomp -> conf !! old = None) ->
     effective conf !! k = Some v) /\
  (forall k v, (k, v) ∈ defaults -> conf !! k = None ->
     (forall old, (old, k) ∈ backcomp -> conf !! old = None) ->
     effective conf !! k = Some v).
Proof.
  assert (forall old new, (old, new) ∈ backcomp ->
            (list_to_map (prod_swap <$> backcomp) : gmap string string) !! new
            = Some old) as Hnew.
  { intros old new Hin. unfold backcomp in *.
    repeat (apply elem_of_cons in Hin as [[= -> ->]|Hin]; [reflexivity|]).
    now apply elem_of_nil in Hin. }
  assert (forall k old,
            (list_to_map (prod_swap <$> backcomp) : gmap string string) !! k
            = Some old -> (old, k) ∈ backcomp) as Hnew'.
  { intros k old Hk. apply elem_of_list_to_map_2 in Hk.
    apply list_elem_of_fmap in Hk as ([a b] & Heq & Hin).
    injection Heq as -> ->. exact Hin. }
  assert (forall old new, (old, new) ∈ backcomp ->
            old ∈ backcomp.*1 /\ (new ∉ backcomp.*1) /\
            (list_to_map defaults : gmap string string) !! old = None) as Hbc.
  { intros old new Hin. unfold backcomp in *.
    repeat (apply elem_of_cons in Hin as [[= -> ->]|Hin];
            [split; [|split]; [|apply (bool_decide_unpack _)|]; vm_compute; auto;
             repeat constructor|]).
    now apply elem_of_nil in Hin. }
  split; [|split; [|split]].
  - intros old new Hin. destruct (Hbc old new Hin) as (Hold & _ & Hdef).
    rewrite effective_lookup, upgrade_lookup.
    now rewrite bool_decide_eq_true_2 by exact Hold.
  - intros old new v Hin Hv. destruct (Hbc old new Hin) as (_ & Hn & _).
    rewrite effective_lookup, upgrade_lookup.
    rewrite bool_decide_eq_false_2 by exact Hn.
    now rewrite (Hnew old new Hin), Hv.
  - intros k v Hk Hnot Hlegacy.
    rewrite effective_lookup, upgrade_lookup.
    rewrite bool_decide_eq_false_2 by exact Hnot.
    destruct (list_to_map (prod_swap <$> backcomp) !! k) as [old|] eqn:E.
    + now rewrite (Hlegacy old (Hnew' k old E)), Hk.
    + now rewrite Hk.
  - intros k v Hin Hk Hlegacy.
    assert ((k ∉ backcomp.*1) /\
            (list_to_map defaults : gmap string string) !! k = Some v) as [Hnot Hdef].
    { unfold defaults in Hin.
      repeat (apply elem_of_cons in Hin as [[= -> ->]|Hin];
              [split; [apply (bool_decide_unpack _); vm_compute; exact I
                      |reflexivity]|]).
      now apply elem_of_nil in Hin. }
    rewrite effective_lookup, upgrade_lookup.
    rewrite bool_decide_eq_false_2 by exact Hnot.
    destruct (list_to_map (prod_swap <$> backcomp) !! k) as [old|] eqn:E.
    + now rewrite (Hlegacy old (Hnew' k old E)), Hk.
    + now rewrite Hk.
Qed.

(** *** The constructor's run *)

Lemma run_prepare_all_calm (env : Env) (entries : list (string * sql.Query))
    (m : MSSQLBackend) (w : World) :
  (forall c, fault env c = None) ->
  run env (prepare_all m entries) w
  = Returned (inr {| dbTable := dbTable m;
                     statements :=
                       foldl (fun acc e => <[e.1 := e.2]> acc) (statements m) entries;
                     permitPool := permitPool m |}) w.
Proof.
  intros Hf. revert m. induction entries as [|[name query] entries IH]; intros m.
  - now destruct m.
  - simpl. rewrite Hf. simpl. rewrite IH. reflexivity.
Qed.

Lemma run_create_table_calm (env : Env) (n : Z) (db sc tb : string) (w : World) :
  (forall c, fault env c = None) -> fair_range env ->
  run env (create_table n db sc tb) w
  = Returned (inr {| dbTable := db ++ "." ++ sc ++ "." ++ tb;
                     statements := list_to_map statement_list;
                     permitPool := NewPermitPool n |}) w.
Proof.
  intros Hf Hfair. unfold create_table. cbv zeta.
  cbn [bind call run handle]. rewrite Hf.
  cbn [driver_error fmap option_fmap option_map check bind run handle].
  rewrite (run_prepare_all_calm env _ _ w Hf).
  cbn [dbTable statements permitPool].
  now rewrite (statements_of_permutation _ (Hfair statement_list)).
Qed.

(** X6. When [max_parallel] is absent or reads as a number and no driver
    call fails, the constructor returns a backend for the table
    database.schema.table of the effective configuration, with the four
    statements prepared and a pool of [max_parallel] permits (the default
    when absent); the rows of the table are not touched. *)
Theorem NewMSSQLBackend_succeeds (d : Z) (env : Env) (conf : gmap string string)
    (w : World) (maxParInt : Z) :
  (forall c, fault env c = None) -> fair_range env ->
  match conf !! "max_parallel" with
  | Some s => strconv.Atoi s
  | None => inr d
  end = inr maxParInt ->
  run env (NewMSSQLBackend d conf) w
  = Returned
      (inr {| dbTable := conf_get (effective conf) "database" ++ "."
                         ++ conf_get (effective conf) "schema" ++ "."
                         ++ conf_get (effective conf) "table";
              statements := list_to_map statement_list;
              permitPool := NewPermitPool maxParInt |}) w.
Proof.
  intros Hf Hfair Hpar. unfold NewMSSQLBackend. rewrite Hpar. cbv zeta.
  fold (effective conf).
  cbn [bind call run handle].
  repeat (rewrite Hf;
          cbn [driver_error fmap option_fmap option_map check bind run handle]).
  unfold ensure_schema.
  destruct (bool_decide (conf_get (effective conf) "schema" <> "dbo"));
    [|now apply run_create_table_calm].
  cbn [bind call run handle].
  repeat (rewrite Hf;
          cbn [driver_error fmap option_fmap option_map check bind run handle]).
  destruct (schema_found env); [now apply run_create_table_calm|].
  rewrite bool_decide_eq_true_2 by reflexivity.
  cbn [bind call run handle]. rewrite Hf.
  cbn [driver_error fmap option_fmap option_map check bind run handle].
  now apply run_create_table_calm.
Qed.

Lemma digits_not_all (s : string) (acc : Z) :
  strconv.all_digits s = false ->
  strconv.digits s acc = inl ErrSyntax \/ strconv.digits s acc = inl ErrRange.
Proof.
  revert acc. induction s as [|c s IH]; intros acc; simpl; [discriminate|].
  destruct (strconv.digit c) as [d|]; [|now left].
  rewrite bool_decide_eq_true_2 by eauto. simpl. intros H.
  case_bool_decide; [now right|now apply IH].
Qed.

Lemma digit_range (c : ascii) (d : Z) : strconv.digit c = Some d -> 0 <= d <= 9.
Proof.
  unfold strconv.digit. case_bool_decide; [|discriminate]. intros [= <-]. lia.
Qed.

(** Fewer than twenty digits never leave the range of a uint64. *)
Lemma digits_short (s : string) (acc : Z) :
  0 <= acc -> (acc + 1) * 10 ^ Z.of_nat (String.length s) <= 10 ^ 19 ->
  strconv.digits s acc <> inl ErrRange.
Proof.
  revert acc. induction s as [|c s IH]; intros acc Hacc Hb; simpl; [discriminate|].
  destruct (strconv.digit c) as [d|] eqn:Ed; [|discriminate].
  apply digit_range in Ed.
  cbn [String.length] in Hb. rewrite Nat2Z.inj_succ, Z.pow_succ_r in Hb by lia.
  assert (0 < 10 ^ Z.of_nat (String.length s)) as Hp
    by (apply Z.pow_pos_nonneg; lia).
  generalize dependent (10 ^ Z.of_nat (String.length s)).
  intros P IH Hb Hp.
  assert (0 <= (acc + 1) * (P - 1)) by (apply Z.mul_nonneg_nonneg; lia).
  assert (0 <= (9 - d) * P) by (apply Z.mul_nonneg_nonneg; lia).
  case_bool_decide as Hov.
  - exfalso. lia.
  - apply IH; [lia|]. lia.
Qed.

Lemma signed_length (s : string) :
  (String.length (strconv.signed s).2 <= String.length s)%nat.
Proof.
  destruct s as [|c s]; simpl; [lia|].
  destruct (Ascii.eqb c "-"); [simpl; lia|].
  destruct (Ascii.eqb c "+"); simpl; lia.
Qed.

(** What [Atoi] answers to a string that is not a decimal numeral. *)
Lemma Atoi_not_numeral (s : string) :
  strconv.numeral s = false ->
  exists e, (e = ErrSyntax \/ e = ErrRange) /\
    ((String.length s < 19)%nat -> e = ErrSyntax) /\
    strconv.Atoi s = inl (NumError "Atoi" s e).
Proof.
  unfold strconv.numeral, strconv.Atoi. pose proof (signed_length s) as Hlen.
  destruct (strconv.signed s) as [negative body]. cbn [snd] in *.
  destruct body as [|c body]; [exists ErrSyntax; auto|].
  intros Hnum.
  pose proof (digits_short (String c body) 0) as Hshort.
  destruct (digits_not_all _ 0 Hnum) as [H|H]; rewrite H in *.
  - exists ErrSyntax. auto.
  - exists ErrRange. split; [auto|]. split; [|reflexivity].
    intros Hs. exfalso. apply Hshort; [lia| |reflexivity].
    assert (10 ^ Z.of_nat (String.length (String c body)) <= 10 ^ 19)
      by (apply Z.pow_le_mono_r; lia).
    lia.
Qed.

(** X5. A [max_parallel] that is not a decimal numeral (it is empty, a
    bare sign, or holds a character that is not a digit) makes the
    constructor fail before it makes any call: the database is not even
    opened.  The error wraps the [*NumError] of [strconv.Atoi], which
    names the value given; it reports a syntax error, or a range error
    when the digits before the offending character already leave the
    range of a uint64, which takes at least 19 characters. *)
Theorem NewMSSQLBackend_bad_max_parallel (d : Z) (env : Env)
    (conf : gmap string string) (w : World) (s : string) :
  conf !! "max_parallel" = Some s -> strconv.numeral s = false ->
  exists e, (e = ErrSyntax \/ e = ErrRange) /\
    ((String.length s < 19)%nat -> e = ErrSyntax) /\
    run env (NewMSSQLBackend d conf) w
    = Returned (inl (Wrapf "failed parsing max_parallel parameter: {{err}}"
                       (NumError "Atoi" s e))) w /\
    calls env (NewMSSQLBackend d conf) w = [].
Proof.
  intros Hs Hnum.
  destruct (Atoi_not_numeral s Hnum) as (e & He & Hshort & Hatoi).
  exists e. split; [exact He|]. split; [exact Hshort|].
  unfold NewMSSQLBackend. rewrite Hs, Hatoi. auto.
Qed.

Lemma calls_Do {A : Type} (env : Env) (c : Call) (k : Reply c -> Prog A)
    (w : World) (c' : Call) :
  c' ∈ calls env (Do c k) w ->
  c' = c \/ exists r w', handle env c w = Some (r, w') /\ c' ∈ calls env (k r) w'.
Proof.
  simpl. intros [->|H]%elem_of_cons; [now left|right].
  destruct (handle env c w) as [[r w']|]; [eauto|now apply elem_of_nil in H].
Qed.

Lemma calls_check {A : Type} (env : Env) (err : option error) (format : string)
    (rest : Prog (error + A)) (w : World) (c : Call) :
  c ∈ calls env (check err format rest) w -> err = None /\ c ∈ calls env rest w.
Proof.
  destruct err; simpl; [intros H; now apply elem_of_nil in H|auto].
Qed.

Lemma calls_prepare_all (env : Env) (entries : list (string * sql.Query))
    (m : MSSQLBackend) (w : World) (c : Call) :
  c ∈ calls env (prepare_all m entries) w -> exists t q, c = Prepare t q.
Proof.
  revert m w. induction entries as [|[name query] entries IH]; intros m w.
  - intros H. now apply elem_of_nil in H.
  - intros [->|(r & w' & Hh & H)]%calls_Do; [eauto|].
    destruct r as [err|stmt]; [now apply elem_of_nil in H|].
    exact (IH _ _ H).
Qed.

Lemma calls_create_table (env : Env) (n : Z) (db sc tb : string) (w : World) (c : Call) :
  c ∈ calls env (create_table n db sc tb) w ->
  (exists q, c = DBExec (String "I" q)) \/ (exists l, c = Range l) \/
  (exists t q, c = Prepare t q).
Proof.
  unfold create_table. cbv zeta.
  intros [->|(r & w' & Hh & H)]%calls_Do; [left; eauto|].
  apply calls_check in H as [_ H].
  apply calls_Do in H as [->|(r' & w'' & Hh' & H)]; [right; left; eauto|].
  right; right. exact (calls_prepare_all _ _ _ _ _ H).
Qed.

(** X7. The schema block.  The constructor probes for the schema only when
    the schema is not "dbo", and issues CREATE SCHEMA, for that schema,
    only when on top of that the probe reported no rows; and in that
    case, when no call fails, CREATE SCHEMA is the sixth call it
    makes. *)
Theorem NewMSSQLBackend_schema_calls (d : Z) (env : Env)
    (conf : gmap string string) (w : World) :
  (forall q, DBQueryRowScan q ∈ calls env (NewMSSQLBackend d conf) w ->
     conf_get (effective conf) "schema" <> "dbo") /\
  (forall q, DBExec ("CREATE SCHEMA " ++ q) ∈ calls env (NewMSSQLBackend d conf) w ->
     conf_get (effective conf) "schema" <> "dbo" /\ schema_found env = false /\
     q = conf_get (effective conf) "schema") /\
  (forall n,
     match conf !! "max_parallel" with
     | Some s => strconv.Atoi s
     | None => inr d
     end = inr n ->
     (forall c, fault env c = None) ->
     conf_get (effective conf) "schema" <> "dbo" -> schema_found env = false ->
     calls env (NewMSSQLBackend d conf) w !! 5%nat
     = Some (DBExec ("CREATE SCHEMA " ++ conf_get (effective conf) "schema"))).
Proof.
  apply and_assoc. split; [|
    intros n Hpar Hf Hsc Hfound; unfold NewMSSQLBackend; rewrite Hpar; cbv zeta;
    fold (effective conf); cbn [bind call calls handle];
    repeat (rewrite Hf;
            cbn [driver_error fmap option_fmap option_map check bind calls handle]);
    unfold ensure_schema; rewrite bool_decide_eq_true_2 by exact Hsc;
    cbn [bind call calls handle];
    repeat (rewrite Hf;
            cbn [driver_error fmap option_fmap option_map check bind calls handle]);
    rewrite Hfound; rewrite bool_decide_eq_true_2 by reflexivity;
    cbn [bind call calls handle]; reflexivity].
  unfold NewMSSQLBackend.
  destruct (match conf !! "max_parallel" with
            | Some s => strconv.Atoi s | None => inr d end) as [err|n].
  { split; intros q H; now apply elem_of_nil in H. }
  cbv zeta. fold (effective conf).
  set (db := conf_get (effective conf) "database").
  set (sc := conf_get (effective conf) "schema").
  set (tb := conf_get (effective conf) "table").
  assert (forall c w, c ∈ calls env (create_table n db sc tb) w ->
            (forall q, c <> DBQueryRowScan q) /\
            (forall q, c <> DBExec ("CREATE SCHEMA " ++ q)))
    as Hct.
  { intros c w0 Hc. apply calls_create_table in Hc
      as [(q' & ->)|[(l & ->)|(t & q' & ->)]]; split; intros q; discriminate. }
  split.
  - intros q [[=]|(r & w1 & _ & H)]%calls_Do.
    apply calls_check in H as [_ H].
    apply calls_Do in H as [[=]|(r2 & w2 & _ & H)].
    apply calls_Do in H as [[=]|(r3 & w3 & _ & H)].
    apply calls_check in H as [_ H].
    unfold ensure_schema in H. case_bool_decide as Hsc; [exact Hsc|].
    now destruct (Hct _ _ H) as [H1 _], (H1 q).
  - intros q [[=]|(r & w1 & _ & H)]%calls_Do.
    apply calls_check in H as [_ H].
    apply calls_Do in H as [[=]|(r2 & w2 & _ & H)].
    apply calls_Do in H as [[=]|(r3 & w3 & _ & H)].
    apply calls_check in H as [_ H].
    unfold ensure_schema in H. case_bool_decide as Hsc;
      [|now destruct (Hct _ _ H) as [_ H2], (H2 q)].
    split; [exact Hsc|].
    apply calls_Do in H as [[=]|(r4 & w4 & _ & H)].
    apply calls_check in H as [_ H].
    apply calls_Do in H as [[=]|(r5 & w5 & Hh & H)].
    destruct r5 as [e|]; [|now destruct (Hct _ _ H) as [_ H2], (H2 q)].
    case_bool_decide as He; [|now apply elem_of_nil in H].
    subst e. simpl in Hh.
    assert (schema_found env = false) as Hfound.
    { destruct (fault env _); [discriminate|].
      now destruct (schema_found env). }
    apply calls_Do in H as [Heq|(r6 & w6 & _ & H)].
    + split; [exact Hfound|]. now injection Heq.
    + apply calls_check in H as [_ H].
      now destruct (Hct _ _ H) as [_ H2], (H2 q).
Qed.

(** X8. A [connection_url] in the configuration is what the constructor
    opens the database with, as given: the first call of the constructor
    is [sql.Open] on it, and no other parameter enters the connection
    string. *)
Theorem NewMSSQLBackend_connection_url (d : Z) (env : Env)
    (conf : gmap string string) (w : World) (url : string) (maxParInt : Z) :
  conf !! "connection_url" = Some url -> url <> EmptyString ->
  match conf !! "max_parallel" with
  | Some s => strconv.Atoi s
  | None => inr d
  end = inr maxParInt ->
  calls env (NewMSSQLBackend d conf) w !! 0%nat = Some (Open "mssql" url).
Proof.
  intros Hurl Hne Hpar. unfold NewMSSQLBackend. rewrite Hpar. cbv zeta.
  fold (effective conf). cbn [bind call calls lookup list_lookup].
  assert (effective conf !! "connection_url" = Some url) as He.
  { rewrite effective_lookup, upgrade_lookup.
    rewrite bool_decide_eq_false_2
      by (apply (bool_decide_unpack _); vm_compute; exact I).
    change (list_to_map (prod_swap <$> backcomp) !! "connection_url")
      with (None : option string).
    now rewrite Hurl. }
  unfold connection_string, conf_get. rewrite He. simpl default.
  now rewrite bool_decide_eq_false_2 by exact Hne.
Qed.

End mssql_ctor_facts.

(** ** mssql.go: what each operation does to the store and to the pool *)

Module mssql_more_facts.
Import physical mssql gostrings gostrings_facts sql_facts mssql_facts.

(** *** Each operation, call by call *)

(** X9. Whatever the driver does, an operation of a constructed backend
    that finds a permit makes three calls: it acquires the permit, runs
    its one statement, and releases the permit; so the release follows
    the statement also when the statement fails. *)
Theorem operation_calls (m : MSSQLBackend) (env : Env) (op : Operation)
    (w : World) (n : nat) :
  constructed m -> available w = S n ->
  calls env (invoke m op) w = [Acquire; op_call op; Release].
Proof.
  intros Hm Hav.
  destruct (constructed_lookup m Hm) as (Hput & Hget & Hdel & Hlist).
  destruct op as [entry|key|key|prefix]; unfold invoke, Put, Get, Delete, List, prepared;
    cbv zeta; rewrite ?Hput, ?Hget, ?Hdel, ?Hlist; simpl; rewrite Hav; simpl.
  - unfold put_call. destruct (sql.Stmt_Exec _ _ _ _) as [[e|] tbl]; reflexivity.
  - unfold get_call.
    destruct (sql.Stmt_QueryRow_Scan _ _ _ _ _ _) as [[e|c] tbl]; simpl;
      [destruct (bool_decide _)|]; reflexivity.
  - unfold delete_call. destruct (sql.Stmt_Exec _ _ _ _) as [[e|] tbl]; reflexivity.
  - unfold list_call.
    destruct (sql.Stmt_Query _ _ _ _ _ _) as [[e|rows] tbl]; simpl; [reflexivity|].
    destruct (List_loop prefix rows []); reflexivity.
Qed.

(** X10. The deferred release.  An operation that finds a permit never
    blocks further on, and however it ends the pool has the permits it
    had before: when it returns a result, when it returns an error, and
    when it panics on a statement that was never prepared (the backend
    need not come from the constructor). *)
Theorem operation_restores_permits (m : MSSQLBackend) (env : Env) (op : Operation)
    (w : World) (n : nat) :
  available w = S n ->
  exists w', available w' = available w /\
    ((exists r, run env (invoke m op) w = Returned r w') \/
     (exists msg, run env (invoke m op) w = Panicked msg w' /\ table w' = table w)).
Proof.
  intros Hav.
  destruct op as [entry|key|key|prefix]; unfold invoke, Put, Get, Delete, List, prepared;
    cbv zeta; simpl; rewrite Hav.
  - destruct (statements m !! "put") as [st|]; simpl.
    + destruct (sql.Stmt_Exec _ _ _ _) as [[e|] tbl]; simpl;
        eexists; (split; [|left; eexists; reflexivity]); simpl; congruence.
    + eexists; split; [|right; eexists; split; [reflexivity|reflexivity]].
      simpl; congruence.
  - destruct (statements m !! "get") as [st|]; simpl.
    + destruct (sql.Stmt_QueryRow_Scan _ _ _ _ _ _) as [[e|c] tbl]; simpl;
        [destruct (bool_decide _)|]; simpl;
        eexists; (split; [|left; eexists; reflexivity]); simpl; congruence.
    + eexists; split; [|right; eexists; split; [reflexivity|reflexivity]].
      simpl; congruence.
  - destruct (statements m !! "delete") as [st|]; simpl.
    + destruct (sql.Stmt_Exec _ _ _ _) as [[e|] tbl]; simpl;
        eexists; (split; [|left; eexists; reflexivity]); simpl; congruence.
    + eexists; split; [|right; eexists; split; [reflexivity|reflexivity]].
      simpl; congruence.
  - destruct (statements m !! "list") as [st|]; simpl.
    + destruct (sql.Stmt_Query _ _ _ _ _ _) as [[e|rows] tbl]; simpl;
        [|destruct (List_loop prefix rows [])]; simpl;
        eexists; (split; [|left; eexists; reflexivity]); simpl; congruence.
    + eexists; split; [|right; eexists; split; [reflexivity|reflexivity]].
      simpl; congruence.
Qed.

(** X11. [Put] touches one row: after a [Put] that returns, with or
    without an error, every other key has the row it had and the pool
    has the permits it had; and when no error is returned the key holds
    the value. *)
Theorem Put_touches_one_key (m : MSSQLBackend) (env : Env) (entry : Entry)
    (w w' : World) (err : option error) :
  constructed m ->
  run env (Put m entry) w = Returned err w' ->
  available w' = available w /\
  (forall k, k <> Key entry -> table w' !! k = table w !! k) /\
  (err = None -> table w' !! Key entry = Some (Value entry)).
Proof.
  intros Hm. destruct (available w) as [|n] eqn:Hav.
  { unfold Put. simpl. rewrite Hav. discriminate. }
  rewrite (run_Put m env entry w n Hm Hav). unfold sql.Stmt_Exec.
  rewrite exec_put.
  destruct (fault env _);
    [intros [= <- <-]; simpl; split; [auto|split; [auto|discriminate]]|].
  assert (forall k, k <> Key entry ->
            <[Key entry := Value entry]> (table w) !! k = table w !! k) as Hne
    by (intros k Hk; apply lookup_insert_ne; congruence).
  destruct (bool_decide (is_Some _)).
  - intros [= <- <-]; simpl. split; [auto|]. split; [exact Hne|].
    intros _. apply lookup_insert_eq.
  - destruct (bool_decide _); intros [= <- <-]; simpl.
    + split; [auto|split; [auto|discriminate]].
    + split; [auto|]. split; [exact Hne|]. intros _. apply lookup_insert_eq.
Qed.

(** X12. [Delete] touches one row: after a [Delete] that returns, with
    or without an error, every other key has the row it had and the pool
    has the permits it had; and when no error is returned the key has no
    row. *)
Theorem Delete_touches_one_key (m : MSSQLBackend) (env : Env) (key : string)
    (w w' : World) (err : option error) :
  constructed m ->
  run env (Delete m key) w = Returned err w' ->
  available w' = available w /\
  (forall k, k <> key -> table w' !! k = table w !! k) /\
  (err = None -> table w' !! key = None).
Proof.
  intros Hm. destruct (available w) as [|n] eqn:Hav.
  { unfold Delete. simpl. rewrite Hav. discriminate. }
  rewrite (run_Delete m env key w n Hm Hav). unfold sql.Stmt_Exec.
  rewrite exec_delete.
  destruct (fault env _); intros [= <- <-]; simpl.
  - split; [auto|split; [auto|discriminate]].
  - split; [auto|]. split.
    + intros k Hk. apply lookup_delete_ne. congruence.
    + intros _. apply lookup_delete_eq.
Qed.

End mssql_more_facts.

(** ** mssql.go: the names [List] returns *)

Module mssql_list_facts.
Import physical mssql gostrings gostrings_facts sql_facts mssql_facts.

(** *** List under any prefix *)

Lemma listed_name_collapse (s : string) : listed_name (collapse s).
Proof.
  unfold listed_name. induction s as [|b s IH]; [exact I|].
  rewrite collapse_cons. destruct (ascii_dec "/" b) as [<-|Hne]; [reflexivity|].
  rewrite index_slash_cons. destruct (ascii_dec "/" b); [contradiction|].
  destruct (String.index 0 "/" (collapse s)) as [i|]; simpl; [|exact I].
  now rewrite IH.
Qed.

Lemma exec_list (pattern : string) (tbl : gmap string bytes) :
  sql.exec (sql.SelectPath (sql.PathLike 0)) [sql.ArgString pattern] tbl = inr tbl.
Proof. reflexivity. Qed.

(** The keys the "list" query selects. *)
Lemma selected_by_pattern (pattern : string) (tbl : gmap string bytes) (k : string) :
  k ∈ (map_to_list (sql.select (sql.like pattern) tbl)).*1
  <-> is_Some (tbl !! k) /\ sql.like pattern k = true.
Proof.
  rewrite list_elem_of_fmap. split.
  - intros ([k' v] & -> & Hin). apply elem_of_map_to_list in Hin.
    unfold sql.select in Hin. apply map_lookup_filter_Some in Hin as [Hk Hp].
    simpl in *. eauto.
  - intros [[v Hv] Hp]. exists (k, v). split; [reflexivity|].
    apply elem_of_map_to_list. unfold sql.select.
    apply map_lookup_filter_Some. auto.
Qed.

(** X15. Whatever the prefix, wildcards included (brackets apart, which the
    model of LIKE does not read), when nothing fails [List] returns its
    names in ascending order, and they are the collapsed remainders of
    the stored keys that the pattern [prefix%] selects: a key that
    matches the pattern without starting with the prefix is listed
    untrimmed. *)
Theorem List_any_prefix (m : MSSQLBackend) (env : Env) (prefix : string)
    (w : World) (n : nat) :
  constructed m -> available w = S n -> fair_rows env ->
  fault env (list_call prefix) = None ->
  (forall i, scan_fault env i = None) ->
  sql.bracket_free prefix = true ->
  exists keys,
    run env (List m prefix) w = Returned (keys, None) w /\
    Sorted String.le keys /\
    forall x, x ∈ keys <->
      exists k, is_Some (table w !! k) /\
                sql.like (prefix ++ "%") k = true /\
                x = collapse (TrimPrefix k prefix).
Proof.
  intros Hm Hav Hfair Hf Hscan _.
  rewrite (run_List m env prefix w n Hm Hav), Hf.
  unfold sql.Stmt_Query. rewrite exec_list.
  rewrite (scanned_calm _ _ Hscan), List_loop_calm, (world_eta w (S n) Hav).
  eexists. split; [reflexivity|]. split.
  - apply Sorted_merge_sort, _.
  - intros x. unfold sort_Strings. rewrite merge_sort_Permutation.
    rewrite elem_of_List_steps.
    assert (forall k,
              k ∈ sql.to_string <$>
                    row_order env
                      (sql.result_set (sql.SelectPath (sql.PathLike 0))
                         [sql.ArgString (prefix ++ "%")] (table w))
              <-> is_Some (table w !! k) /\ sql.like (prefix ++ "%") k = true)
      as Hks.
    { intros k. rewrite (Hfair _). simpl. rewrite <- list_fmap_compose.
      apply selected_by_pattern. }
    split.
    + intros [H|(k & Hk & ->)]; [now apply not_elem_of_nil in H|].
      apply Hks in Hk as [Hk Hp]. eauto.
    + intros (k & Hk & Hp & ->). right. exists k. split; [|reflexivity].
      apply Hks. auto.
Qed.

Lemma List_loop_cons (prefix : string) (c : sql.Cell) (rows : sql.Rows)
    (acc : list string) :
  List_loop prefix (inr c :: rows) acc
  = List_loop prefix rows (List_step prefix acc (sql.to_string c)).
Proof.
  cbn [List_loop]. unfold List_step.
  destruct (bool_decide (Index _ _ = -1)) eqn:E; [reflexivity|].
  rewrite bool_decide_eq_true_2; [reflexivity|].
  now apply bool_decide_eq_false in E.
Qed.

Lemma List_step_names (prefix : string) (acc : list string) (key : string) :
  Forall listed_name acc -> Forall listed_name (List_step prefix acc key).
Proof.
  intros Hall. rewrite List_step_spec. cbv zeta.
  assert (Forall listed_name (acc ++ [collapse (TrimPrefix key prefix)])) as Happ.
  { apply Forall_app. split; [exact Hall|].
    constructor; [apply listed_name_collapse|constructor]. }
  destruct (String.index 0 "/" (TrimPrefix key prefix)); [|exact Happ].
  unfold strutil.AppendIfMissing. now case_bool_decide.
Qed.

Lemma List_loop_names (prefix : string) (rows : sql.Rows) (acc keys : list string) :
  List_loop prefix rows acc = inr keys ->
  Forall listed_name acc -> Forall listed_name keys.
Proof.
  revert acc. induction rows as [|[e|c] rows IH]; intros acc.
  - now intros [= <-].
  - discriminate.
  - rewrite List_loop_cons. intros H Hall.
    apply (IH _ H). now apply List_step_names.
Qed.

(** X16. Every name [List] returns is either free of separators (a leaf) or
    has its one separator at the end (a directory), whatever the prefix
    and the rows. *)
Theorem List_names (m : MSSQLBackend) (env : Env) (prefix : string)
    (w w' : World) (keys : list string) (err : option error) :
  constructed m ->
  run env (List m prefix) w = Returned (keys, err) w' ->
  Forall listed_name keys.
Proof.
  intros Hm. destruct (available w) as [|n] eqn:Hav.
  { unfold List. simpl. rewrite Hav. discriminate. }
  rewrite (run_List m env prefix w n Hm Hav).
  destruct (sql.Stmt_Query _ _ _ _ _ _) as [[e|rows] tbl].
  - intros [= <- _ _]. constructor.
  - destruct (List_loop prefix rows []) as [e|ks] eqn:Hloop.
    + intros [= <- _ _]. constructor.
    + intros [= <- _ _].
      assert (Forall listed_name ks) as Hall
        by (apply (List_loop_names prefix rows [] ks Hloop); constructor).
      unfold sort_Strings.
      apply Forall_forall. intros x Hx. rewrite merge_sort_Permutation in Hx.
      revert x Hx. now apply Forall_forall.
Qed.

Lemma List_loop_error (prefix : string) (sf : nat -> option string)
    (cells : list sql.Cell) (acc : list string) (e : error) :
  List_loop prefix (sql.scanned sf cells) acc = inl e ->
  exists i msg, sf i = Some msg /\
    e = Wrapf "failed to scan rows: {{err}}" (DriverError msg).
Proof.
  unfold sql.scanned. revert sf acc.
  induction cells as [|c cells IH]; intros sf acc; [discriminate|].
  rewrite imap_cons. destruct (sf 0%nat) as [msg|] eqn:E0.
  - intros [= <-]. eauto.
  - intros H. rewrite List_loop_cons in H.
    destruct (IH (sf ∘ S) _ H) as (i & msg & Hi & He).
    exists (S i), msg. auto.
Qed.

(** X17. [List] returns an error without any names.  The error is the
    failure of the query as the driver reports it, or the failure of a
    row scan wrapped as "failed to scan rows"; the store is as before. *)
Theorem List_error (m : MSSQLBackend) (env : Env) (prefix : string)
    (w w' : World) (keys : list string) (e : error) :
  constructed m ->
  run env (List m prefix) w = Returned (keys, Some e) w' ->
  keys = [] /\ w' = w /\
  ((exists msg, fault env (list_call prefix) = Some msg /\ e = DriverError msg) \/
   (fault env (list_call prefix) = None /\
    exists i msg, scan_fault env i = Some msg /\
      e = Wrapf "failed to scan rows: {{err}}" (DriverError msg))).
Proof.
  intros Hm. destruct (available w) as [|n] eqn:Hav.
  { unfold List. simpl. rewrite Hav. discriminate. }
  rewrite (run_List m env prefix w n Hm Hav). unfold sql.Stmt_Query.
  destruct (fault env (list_call prefix)) as [msg|].
  - rewrite (world_eta w (S n) Hav). intros [= <- <- <-]. eauto 10.
  - rewrite exec_list. rewrite (world_eta w (S n) Hav).
    destruct (List_loop _ _ _) as [e'|ks] eqn:Hloop; [|discriminate].
    intros [= <- <- <-]. apply List_loop_error in Hloop. auto.
Qed.

(** X18. [Put], then [List].  After a [Put] that returned no error, a [List]
    under a prefix of the key that holds no LIKE wildcard, when nothing
    fails in it, returns among its names the one the key stands for: the
    rest of the key after the prefix, cut after its first separator. *)
Theorem Put_then_List (m : MSSQLBackend) (env1 env2 : Env) (entry : Entry)
    (prefix : string) (w w1 : World) :
  constructed m -> fair_rows env2 ->
  run env1 (Put m entry) w = Returned None w1 ->
  fault env2 (list_call prefix) = None ->
  (forall i, scan_fault env2 i = None) ->
  sql.literal prefix = true ->
  String.prefix prefix (Key entry) = true ->
  exists keys,
    run env2 (List m prefix) w1 = Returned (keys, None) w1 /\
    collapse (drop (String.length prefix) (Key entry)) ∈ keys.
Proof.
  intros Hm Hfair Hput Hf Hscan Hlit Hpre.
  destruct (available w) as [|n] eqn:Hav.
  { unfold Put in Hput. simpl in Hput. rewrite Hav in Hput. discriminate. }
  assert (available w1 = S n /\ table w1 !! Key entry = Some (Value entry))
    as [Hav1 Hk].
  { rewrite (run_Put m env1 entry w n Hm Hav) in Hput.
    unfold sql.Stmt_Exec in Hput. rewrite exec_put in Hput.
    destruct (fault env1 _); [discriminate|].
    destruct (bool_decide (is_Some _)).
    - injection Hput as <-. simpl. split; [reflexivity|apply lookup_insert_eq].
    - destruct (bool_decide _); [discriminate|].
      injection Hput as <-. simpl. split; [reflexivity|apply lookup_insert_eq]. }
  rewrite (run_List m env2 prefix w1 n Hm Hav1), Hf.
  unfold sql.Stmt_Query. rewrite exec_list.
  rewrite (scanned_calm _ _ Hscan), List_loop_calm, (world_eta w1 (S n) Hav1).
  eexists. split; [reflexivity|].
  unfold sort_Strings. rewrite merge_sort_Permutation.
  apply elem_of_List_steps. right. exists (Key entry). split.
  - rewrite (Hfair _). simpl. rewrite <- list_fmap_compose.
    apply selected_by_pattern. split; [eauto|].
    now rewrite like_literal.
  - now rewrite TrimPrefix_prefix.
Qed.

End mssql_list_facts.

(** ** mssql.go: concurrent callers make progress *)

Module mssql_progress_facts.
Import physical mssql mssql_facts.

Lemma unhurried_bind_Ret {A B : Type} (g : A -> B) (p : Prog A) (n : nat) :
  unhurried n p -> unhurried n (bind p (fun a => Ret (g a))).
Proof.
  revert n. induction p as [a|msg|c k IH]; intros n; simpl; try tauto.
  intros [Hc Hk]. split; [exact Hc|]. intros r. apply IH, Hk.
Qed.

Lemma unhurried_defer_Release {A : Type} (body : Prog A) :
  permit_free body -> unhurried 1 (defer (call Release) body).
Proof.
  induction body as [a|msg|c k IH]; simpl.
  - intros _. split; [discriminate|]. intros _. exact I.
  - intros _. split; [discriminate|]. intros _. exact I.
  - intros (Ha & Hr & Hk). split; [contradiction|].
    intros r. destruct c; try contradiction; apply IH, Hk.
Qed.

(** Every operation asks for a permit once, at its start. *)
Lemma unhurried_invoke (m : MSSQLBackend) (op : Operation) :
  unhurried 0 (invoke m op).
Proof.
  destruct op; unfold invoke; apply unhurried_bind_Ret;
    unfold Put, Get, Delete, List; simpl; (split; [reflexivity|]); intros _;
    apply unhurried_defer_Release; cbv zeta; apply permit_free_prepared;
    intros st; simpl; (split; [discriminate|]); (split; [discriminate|]);
    intros r.
  - now destruct r.
  - destruct r as [e|c]; [destruct (bool_decide _)|]; exact I.
  - now destruct r.
  - destruct r as [e|rows]; [exact I|]. now destruct (List_loop _ _ _).
Qed.

Lemma unhurried_reachable (m : MSSQLBackend) (ops : list Operation)
    (tbl : gmap string bytes) (cfg : Config) :
  rtc step (start m ops tbl) cfg ->
  forall t, t ∈ threads cfg -> unhurried (permits t) (code t).
Proof.
  intros H. revert cfg H.
  apply (rtc_ind_r (fun cfg => forall t, t ∈ threads cfg ->
                                 unhurried (permits t) (code t))).
  - intros t Ht. apply list_elem_of_fmap in Ht as (op & -> & _).
    apply unhurried_invoke.
  - intros cfg cfg' _ Hstep IH.
    destruct Hstep as [env ts w w' i c k n r Hi Hh]. simpl in *.
    intros t Ht. apply list_elem_of_lookup in Ht as [j Hj].
    apply list_lookup_insert_Some in Hj as [(_ & <- & _)|[_ Hj]].
    + assert (unhurried n (Do c k)) as Hu.
      { apply (IH {| code := Do c k; permits := n |}).
        eapply list_elem_of_lookup_2, Hi. }
      apply Hu.
    + eapply IH, list_elem_of_lookup_2, Hj.
Qed.

Lemma held_zero (ts : list Thread) :
  Forall (fun t => permits t = 0%nat) ts -> held ts = 0%nat.
Proof.
  unfold held. induction 1 as [|t ts Ht _ IH]; simpl; [reflexivity|].
  unfold fmap in *. lia.
Qed.

(** X19. The callers of one backend never lock each other out.  With a pool
    of at least one permit, in every configuration that callers running
    concurrently can reach, as long as some caller has not come to the
    end of its operation some caller can take its next step: a caller
    that holds a permit never waits for another one, and when no caller
    holds a permit the pool has one to give. *)
Theorem callers_never_deadlock (m : MSSQLBackend) (ops : list Operation)
    (tbl : gmap string bytes) (cfg : Config) :
  (0 < capacity (permitPool m))%nat ->
  rtc step (start m ops tbl) cfg ->
  unfinished cfg ->
  exists cfg', step cfg cfg'.
Proof.
  intros Hcap Hreach (t & Ht & Hnf).
  destruct (consistent_reachable m ops tbl cfg Hreach) as [Hsum Hbr].
  pose proof (unhurried_reachable m ops tbl cfg Hreach) as Hun.
  destruct cfg as [ts w]. simpl in *.
  assert (forall t', t' ∈ ts ->
            (forall c k, code t' = Do c k -> c <> Acquire \/ available w <> 0%nat) ->
            ~ finished t' -> exists cfg', step {| threads := ts; world := w |} cfg')
    as Hgo.
  { intros [p n] Ht' Hc Hnf'. simpl in *.
    destruct p as [a|msg|c k]; try (exfalso; apply Hnf'; exact I).
    apply list_elem_of_lookup in Ht' as [i Hi].
    destruct (handle calm c w) as [[r w']|] eqn:Hh.
    - eexists. exact (step_call calm ts w w' i c k n r Hi Hh).
    - exfalso. pose proof (handle_None calm c w Hh) as ->.
      destruct (Hc Acquire k eq_refl) as [H|H]; [now apply H|].
      simpl in Hh. destruct (available w); [now apply H|discriminate]. }
  destruct (decide (Forall (fun t => permits t = 0%nat) ts)) as [Hall|Hsome].
  - apply (Hgo t Ht); [|exact Hnf].
    intros c k _. right. rewrite (held_zero ts Hall) in Hsum. lia.
  - apply not_Forall_Exists in Hsome; [|apply _].
    apply Exists_exists in Hsome as (t' & Ht' & Hp).
    specialize (Hbr t' Ht'). specialize (Hun t' Ht').
    apply (Hgo t' Ht').
    + intros c k Hc. left. intros ->. rewrite Hc in Hun. simpl in Hun.
      destruct Hun as [Hun _]. apply Hp, Hun. reflexivity.
    + unfold finished. destruct (code t'); simpl in Hbr; [contradiction..|tauto].
Qed.

End mssql_progress_facts.

(** ** The same on concrete backends, stores and drivers *)

Module mssql_more_example_facts.
Import physical mssql mssql_facts mssql_examples mssql_example_facts.

(** The effective configuration of [legacy_conf], computed: the value
    given as "username" is found under "user id", in place of the value
    given there. *)
Example effective_config_run :
  effective legacy_conf !! "username" = None /\
  effective legacy_conf !! "user id" = Some "vault" /\
  effective legacy_conf !! "schema" = Some "secrets" /\
  effective legacy_conf !! "database" = Some "Vault" /\
  effective legacy_conf !! "max_parallel" = Some "4".
Proof. repeat split; vm_compute; reflexivity. Qed.

Lemma NewMSSQLBackend_bad_max_parallel_witness :
  let conf : gmap string string := {[ "max_parallel" := "many" ]} in
  conf !! "max_parallel" = Some "many" /\
  strconv.numeral "many" = false /\
  exists e, (e = ErrSyntax \/ e = ErrRange) /\
    ((String.length "many" < 19)%nat -> e = ErrSyntax) /\
    run calm (NewMSSQLBackend 128 conf) (store [])
    = Returned (inl (Wrapf "failed parsing max_parallel parameter: {{err}}"
                       (NumError "Atoi" "many" e))) (store []) /\
    calls calm (NewMSSQLBackend 128 conf) (store []) = [].
Proof.
  intros conf.
  split; [vm_compute; reflexivity|]. split; [vm_compute; reflexivity|].
  apply (mssql_ctor_facts.NewMSSQLBackend_bad_max_parallel 128 calm conf (store [])
           "many"); vm_compute; reflexivity.
Defined.

(** The same run, computed, and two more values that are refused: a
    bare sign, and a number with a unit. *)
Example NewMSSQLBackend_bad_max_parallel_run :
  returned (run calm (NewMSSQLBackend 128 {[ "max_parallel" := "many" ]}) (store []))
  = Some (inl (Wrapf "failed parsing max_parallel parameter: {{err}}"
                 (NumError "Atoi" "many" ErrSyntax))) /\
  strconv.Atoi "-" = inl (NumError "Atoi" "-" ErrSyntax) /\
  strconv.Atoi "16 " = inl (NumError "Atoi" "16 " ErrSyntax) /\
  strconv.Atoi "+16" = inr 16 /\
  strconv.Atoi "9223372036854775808"
  = inl (NumError "Atoi" "9223372036854775808" ErrRange).
Proof. repeat split; vm_compute; reflexivity. Qed.

Lemma NewMSSQLBackend_succeeds_witness :
  (forall c, fault no_schema c = None) /\ fair_range no_schema /\
  match legacy_conf !! "max_parallel" with
  | Some s => strconv.Atoi s
  | None => inr 128
  end = inr 4 /\
  run no_schema (NewMSSQLBackend 128 legacy_conf) (store [])
  = Returned
      (inr {| dbTable := conf_get (effective legacy_conf) "database" ++ "."
                         ++ conf_get (effective legacy_conf) "schema" ++ "."
                         ++ conf_get (effective legacy_conf) "table";
              statements := list_to_map statement_list;
              permitPool := NewPermitPool 4 |}) (store []).
Proof.
  assert (fair_range no_schema) as Hfair by (intros entries; reflexivity).
  split; [reflexivity|]. split; [exact Hfair|].
  split; [vm_compute; reflexivity|].
  apply (mssql_ctor_facts.NewMSSQLBackend_succeeds 128 no_schema legacy_conf
           (store []) 4); [reflexivity|exact Hfair|vm_compute; reflexivity].
Defined.

(** The same run, computed: the backend's table, and the sixth call,
    which creates the schema that the probe did not find. *)
Example NewMSSQLBackend_succeeds_run :
  (fun r => match r with inr m => Some (dbTable m) | inl _ => None end)
    <$> returned (run no_schema (NewMSSQLBackend 128 legacy_conf) (store []))
  = Some (Some "Vault.secrets.Vault") /\
  calls no_schema (NewMSSQLBackend 128 legacy_conf) (store []) !! 5%nat
  = Some (DBExec "CREATE SCHEMA secrets") /\
  length (calls no_schema (NewMSSQLBackend 128 legacy_conf) (store [])) = 12%nat /\
  length (calls calm (NewMSSQLBackend 128 legacy_conf) (store [])) = 11%nat.
Proof. repeat split; vm_compute; reflexivity. Qed.

Lemma NewMSSQLBackend_connection_url_witness :
  let conf : gmap string string :=
    list_to_map [("connection_url", "sqlserver://vault@db:1433"); ("appname", "x")] in
  conf !! "connection_url" = Some "sqlserver://vault@db:1433" /\
  "sqlserver://vault@db:1433" <> EmptyString /\
  match conf !! "max_parallel" with
  | Some s => strconv.Atoi s
  | None => inr 128
  end = inr 128 /\
  calls calm (NewMSSQLBackend 128 conf) (store []) !! 0%nat
  = Some (Open "mssql" "sqlserver://vault@db:1433").
Proof.
  intros conf.
  split; [vm_compute; reflexivity|]. split; [discriminate|].
  split; [vm_compute; reflexivity|].
  apply (mssql_ctor_facts.NewMSSQLBackend_connection_url 128 calm conf (store [])
           "sqlserver://vault@db:1433" 128);
    [vm_compute; reflexivity|discriminate|vm_compute; reflexivity].
Defined.

Lemma operation_calls_witness :
  constructed backend /\ available tree = 128%nat /\
  calls calm (invoke backend (OpList "a/")) tree
  = [Acquire; op_call (OpList "a/"); Release].
Proof.
  split; [exact backend_constructed|]. split; [reflexivity|].
  exact (mssql_more_facts.operation_calls backend calm (OpList "a/") tree 127
           backend_constructed eq_refl).
Defined.

Lemma operation_restores_permits_witness :
  available tree = 128%nat /\
  exists w', available w' = available tree /\
    ((exists r, run calm (invoke unprepared_backend (OpGet "a/b")) tree
                = Returned r w') \/
     (exists msg, run calm (invoke unprepared_backend (OpGet "a/b")) tree
                  = Panicked msg w' /\ table w' = table tree)).
Proof.
  split; [reflexivity|].
  exact (mssql_more_facts.operation_restores_permits unprepared_backend calm
           (OpGet "a/b") tree 127 eq_refl).
Defined.

(** The same run, computed: the operation panics, and all 128 permits
    are available afterwards. *)
Example operation_panics_run :
  match run calm (invoke unprepared_backend (OpGet "a/b")) tree with
  | Panicked _ w' => available w' = 128%nat
  | _ => False
  end.
Proof. vm_compute. reflexivity. Qed.

Lemma Put_touches_one_key_witness :
  let entry := {| Key := "a/b"; Value := [Byte.x00] |} in
  let w' := {| table := <["a/b" := [Byte.x00]]> (table tree); available := 128 |} in
  constructed backend /\
  run calm (Put backend entry) tree = Returned None w' /\
  available w' = available tree /\
  (forall k, k <> Key entry -> table w' !! k = table tree !! k) /\
  ((None : option error) = None -> table w' !! Key entry = Some (Value entry)).
Proof.
  intros entry w'.
  assert (run calm (Put backend entry) tree = Returned None w') as H
    by (vm_compute; reflexivity).
  split; [exact backend_constructed|]. split; [exact H|].
  exact (mssql_more_facts.Put_touches_one_key backend calm entry tree w' None
           backend_constructed H).
Defined.

Lemma Delete_touches_one_key_witness :
  let w' := {| table := delete "a/b" (table tree); available := 128 |} in
  constructed backend /\
  run calm (Delete backend "a/b") tree = Returned None w' /\
  available w' = available tree /\
  (forall k, k <> "a/b" -> table w' !! k = table tree !! k) /\
  ((None : option error) = None -> table w' !! "a/b" = None).
Proof.
  intros w'.
  assert (run calm (Delete backend "a/b") tree = Returned None w') as H
    by (vm_compute; reflexivity).
  split; [exact backend_constructed|]. split; [exact H|].
  exact (mssql_more_facts.Delete_touches_one_key backend calm "a/b" tree w' None
           backend_constructed H).
Defined.

Lemma List_any_prefix_witness :
  let w := store [("ab", value); ("a_/x", value)] in
  constructed backend /\ available w = 128%nat /\ fair_rows calm /\
  fault calm (list_call "a_") = None /\ (forall i, scan_fault calm i = None) /\
  sql.bracket_free "a_" = true /\
  exists keys,
    run calm (List backend "a_") w = Returned (keys, None) w /\
    Sorted String.le keys /\
    forall x, x ∈ keys <->
      exists k, is_Some (table w !! k) /\
                sql.like ("a_" ++ "%") k = true /\
                x = collapse (gostrings.TrimPrefix k "a_").
Proof.
  intros w.
  split; [exact backend_constructed|]. split; [reflexivity|].
  split; [exact calm_fair_rows|]. split; [reflexivity|]. split; [reflexivity|].
  split; [reflexivity|].
  exact (mssql_list_facts.List_any_prefix backend calm "a_" w 127
           backend_constructed eq_refl calm_fair_rows eq_refl (fun _ => eq_refl)
           eq_refl).
Defined.

(** The same run, computed: the key "ab" is listed whole, the key
    "a_/x" as the directory "/". *)
Example List_any_prefix_run :
  returned (run calm (List backend "a_") (store [("ab", value); ("a_/x", value)]))
  = Some (["/"; "ab"], None).
Proof. vm_compute. reflexivity. Qed.

Lemma List_names_witness :
  constructed backend /\
  run calm (List backend "a/") tree = Returned (["b"; "c"; "d/"], None) tree /\
  Forall listed_name ["b"; "c"; "d/"].
Proof.
  assert (run calm (List backend "a/") tree = Returned (["b"; "c"; "d/"], None) tree)
    as H by (vm_compute; reflexivity).
  split; [exact backend_constructed|]. split; [exact H|].
  exact (mssql_list_facts.List_names backend calm "a/" tree tree _ None
           backend_constructed H).
Defined.

Lemma List_error_witness :
  let e := Wrapf "failed to scan rows: {{err}}" (DriverError "bad row") in
  constructed backend /\
  run broken_scan (List backend "a/") tree = Returned ([], Some e) tree /\
  ([] : list string) = [] /\ tree = tree /\
  ((exists msg, fault broken_scan (list_call "a/") = Some msg /\ e = DriverError msg) \/
   (fault broken_scan (list_call "a/") = None /\
    exists i msg, scan_fault broken_scan i = Some msg /\
      e = Wrapf "failed to scan rows: {{err}}" (DriverError msg))).
Proof.
  intros e.
  assert (run broken_scan (List backend "a/") tree = Returned ([], Some e) tree)
    as H by (vm_compute; reflexivity).
  split; [exact backend_constructed|]. split; [exact H|].
  exact (mssql_list_facts.List_error backend broken_scan "a/" tree tree [] e
           backend_constructed H).
Defined.

Lemma Put_then_List_witness :
  let entry := {| Key := "a/d/f"; Value := value |} in
  let w1 := {| table := <["a/d/f" := value]> (table tree); available := 128 |} in
  constructed backend /\ fair_rows calm /\
  run calm (Put backend entry) tree = Returned None w1 /\
  fault calm (list_call "a/") = None /\ (forall i, scan_fault calm i = None) /\
  sql.literal "a/" = true /\ String.prefix "a/" (Key entry) = true /\
  exists keys,
    run calm (List backend "a/") w1 = Returned (keys, None) w1 /\
    collapse (gostrings.drop (String.length "a/") (Key entry)) ∈ keys.
Proof.
  intros entry w1.
  assert (run calm (Put backend entry) tree = Returned None w1) as H
    by (vm_compute; reflexivity).
  split; [exact backend_constructed|]. split; [exact calm_fair_rows|].
  split; [exact H|]. split; [reflexivity|]. split; [reflexivity|].
  split; [reflexivity|]. split; [reflexivity|].
  exact (mssql_list_facts.Put_then_List backend calm calm entry "a/" tree w1
           backend_constructed calm_fair_rows H eq_refl (fun _ => eq_refl)
           eq_refl eq_refl).
Defined.

Lemma callers_never_deadlock_witness :
  (0 < capacity (permitPool narrow_backend))%nat /\
  rtc step (start narrow_backend
              [OpPut {| Key := "a/b"; Value := value |}; OpGet "a/b"] ∅)
    first_holds /\
  unfinished first_holds /\
  exists cfg', step first_holds cfg'.
Proof.
  assert (0 < capacity (permitPool narrow_backend))%nat as Hcap
    by (vm_compute; lia).
  assert (rtc step (start narrow_backend
                      [OpPut {| Key := "a/b"; Value := value |}; OpGet "a/b"] ∅)
            first_holds) as Hreach.
  { apply rtc_once, (fire_step calm 0). reflexivity. }
  assert (unfinished first_holds) as Hun.
  { exists {| code := invoke narrow_backend (OpGet "a/b"); permits := 0 |}.
    split; [|intros H; exact H].
    apply (list_elem_of_lookup_2 _ 1%nat). reflexivity. }
  split; [exact Hcap|]. split; [exact Hreach|]. split; [exact Hun|].
  exact (mssql_progress_facts.callers_never_deadlock narrow_backend _ ∅ first_holds
           Hcap Hreach Hun).
Defined.

End mssql_more_example_facts.
